(** * HTree: the in-memory hash tree of package [htree]

    A shallow embedding of [htree.go] and the properties of its
    operations.  Pointers to nodes are exclusively owned (every [*node]
    is referenced from exactly one children slice, the root from the
    tree), so a node is embedded as the value it points to and an
    in-place update of a child as the replacement of that child in its
    father's children list.  Run-time panics (index out of range, method
    call on a nil item) are results of their own, and so is a loop that
    would outrun the number of turns it is given.  Slice indices and
    lengths are [Z]: they stay within the length of a slice, where [int]
    arithmetic is exact; the counters [length] and [conflicts] wrap
    around as a 64-bit [int] does. *)

From stdpp Require Import base list sorting strings gmap.
From Stdlib Require Import ZArith Lia.

Local Open Scope Z_scope.

#[local] Set Warnings "-register-all".

(** ** Results of Go code that may panic *)

Inductive error := IndexOutOfRange | NilDereference | OutOfFuel.

Inductive res (X : Type) : Type :=
| Ok (x : X)
| Err (e : error).
Arguments Ok {X} x.
Arguments Err {X} e.

#[global] Instance res_ret : MRet res := fun X x => Ok x.
#[global] Instance res_bind : MBind res := fun X Y f m =>
  match m with
  | Ok x => f x
  | Err e => Err e
  end.

(** ** Machine integers *)

(** [int8(z)]: conversion to a signed 8-bit integer. *)
Definition int8 (z : Z) : Z := (z + 128) mod 256 - 128.

(** [uint32(z)]: conversion to an unsigned 32-bit integer. *)
Definition uint32 (z : Z) : Z := z mod 2 ^ 32.

(** Go's [int], taken at its 64-bit width: the result of an addition or
    subtraction wraps around. *)
Definition int_wrap (z : Z) : Z := (z + 2 ^ 63) mod 2 ^ 64 - 2 ^ 63.

(** [len(s)] as an [int]. *)
Definition len {X} (s : list X) : Z := Z.of_nat (length s).

(** [s[i]]: panics out of range. *)
Definition index {X} (s : list X) (i : Z) : res X :=
  if decide (0 <= i) then
    match s !! Z.to_nat i with
    | Some x => Ok x
    | None => Err IndexOutOfRange
    end
  else Err IndexOutOfRange.

(** [s[i]] followed by the code that uses the element.  The element is
    handed to the continuation so that recursive calls on a child are
    calls on a sub-term. *)
Definition at_index {X Y} (k : X -> res Y) : list X -> nat -> res Y :=
  fix go (s : list X) (i : nat) {struct s} : res Y :=
    match s, i with
    | [], _ => Err IndexOutOfRange
    | x :: _, O => k x
    | _ :: s', S i' => go s' i'
    end.

Definition with_index {X Y} (s : list X) (i : Z) (k : X -> res Y) : res Y :=
  if decide (0 <= i) then at_index k s (Z.to_nat i) else Err IndexOutOfRange.

(** ** Items *)

(** [type Item interface { Key() uint32 }]: the key is a 32-bit unsigned
    integer by its type. *)
Class Item (A : Type) := {
  Key : A -> Z;
  Key_range : forall a, 0 <= Key a < 2 ^ 32
}.

(** [type Uint32 uint32], with [Key] the conversion [uint32(i)]. *)
Inductive Uint32 := mkUint32 (u : Z).

#[global] Instance Uint32_Item : Item Uint32 := {|
  Key := fun i => match i with mkUint32 u => uint32 u end;
  Key_range := fun i =>
    match i with mkUint32 u => Z.mod_pos_bound u (2 ^ 32) eq_refl end
|}.

(** The item type of [htree_example.go]: [struct { key uint32; value string }]. *)
Record KeyValue := mkKeyValue { kv_key : Z; kv_value : string }.

#[global] Instance KeyValue_Item : Item KeyValue := {|
  Key := fun i => uint32 (kv_key i);
  Key_range := fun i => Z.mod_pos_bound (kv_key i) (2 ^ 32) eq_refl
|}.

(** ** Prime ladder and [modulo] *)

Definition primes : list Z := [2; 3; 5; 7; 11; 13; 17; 19; 23; 29].

(** [modulo(key, depth) = int8(key % uint32(primes[depth]))]. *)
Definition modulo (key : Z) (depth : Z) : res Z :=
  p ← index primes depth;
  mret (int8 (key mod uint32 p)).

Section HTree.

Context {A : Type} `{ItemA : Item A}.

(** ** Nodes *)

(** [type node struct { item; depth; remainder; children }].  The item
    of the root is nil. *)
Inductive node : Type :=
  Node { item : option A; depth : Z; remainder : Z; children : list node }.

(** [newNode(item, depth, remainder)]: no children. *)
Definition newNode (it : option A) (d r : Z) : node := Node it d r [].

(** [child.item.Key()]. *)
Definition item_key (n : node) : res Z :=
  match item n with
  | Some a => Ok (Key a)
  | None => Err NilDereference
  end.

(** ** The sibling array *)

(** [children.insert(i, n)]: a nil slot is appended, the elements from
    [i] on are moved one slot to the right and slot [i] is assigned. *)
Definition insert_at (s : list node) (i : Z) (n : node) : res (list node) :=
  if decide (0 <= i <= len s) then
    Ok (take (Z.to_nat i) s ++ n :: drop (Z.to_nat i) s)
  else Err IndexOutOfRange.

(** [children.delete(i)]: [append(s[:i], s[i+1:]...)]. *)
Definition delete_at (s : list node) (i : Z) : res (list node) :=
  if decide (0 <= i < len s) then
    Ok (take (Z.to_nat i) s ++ drop (Z.to_nat (i + 1)) s)
  else Err IndexOutOfRange.

(** [copy(s[dst:], s[src:])] inside one slice: as many elements as the
    shorter of the two slices holds are moved, as by a memory move. *)
Definition copy_slices {X} (s : list X) (dst src : Z) : res (list X) :=
  if decide (0 <= dst <= len s /\ 0 <= src <= len s) then
    let k := Z.to_nat (Z.min (len s - dst) (len s - src)) in
    Ok (take (Z.to_nat dst) s ++ take k (drop (Z.to_nat src) s) ++
        drop (Z.to_nat dst + k) s)
  else Err IndexOutOfRange.

(** The three statements of [children.insert(i, n)] on a slice of
    pointers, a nil pointer being [None]: a nil is appended to the
    slice, then comes the [copy] when [i] is below the new length,
    then the assignment of [n] to the slot [i]. *)
Definition insert_steps (s : list (option node)) (i : Z) (n : option node)
  : res (list (option node)) :=
  let s1 := s ++ [None] in
  s2 ← (if i <? len s1 then copy_slices s1 (i + 1) i else Ok s1);
  if decide (0 <= i < len s2) then Ok (<[Z.to_nat i := n]> s2)
  else Err IndexOutOfRange.

(** The loop of [children.search]: [for left < right { ... }].  Every
    turn shrinks [right - left], so [fuel] turns are enough when
    [right - left <= fuel]. *)
Fixpoint search_loop (fuel : nat) (s : list node) (r left right : Z)
  : res (Z * Z) :=
  if left <? right then
    match fuel with
    | O => Err OutOfFuel
    | S fuel' =>
        let mid := Z.shiftr (left + right) 1 in
        child ← index s mid;
        if remainder child <? r
        then search_loop fuel' s r (mid + 1) right
        else search_loop fuel' s r left mid
    end
  else Ok (left, right).

(** [children.search(r)]: binary search, returning [(ok, left, right)];
    [lft] and [rgt] are the results [left] and [right]. *)
Definition search (s : list node) (r : Z) : res (bool * Z * Z) :=
  '(lft, rgt) ← search_loop (length s) s r 0 (len s - 1);
  if lft =? rgt then
    child ← index s lft;
    if r =? remainder child then Ok (true, lft, rgt)
    else Ok (false, lft, rgt)
  else Ok (false, lft, rgt).

(** ** The tree *)

(** The counters of [HTree], threaded through the recursive calls. *)
Record counters := Counters { c_length : Z; c_conflicts : Z }.

(** [t.conflicts++]. *)
Definition incr_conflicts (st : counters) : counters :=
  Counters (c_length st) (int_wrap (c_conflicts st + 1)).

(** [t.length++]. *)
Definition incr_length (st : counters) : counters :=
  Counters (int_wrap (c_length st + 1)) (c_conflicts st).

(** [t.length--]. *)
Definition decr_length (st : counters) : counters :=
  Counters (int_wrap (c_length st - 1)) (c_conflicts st).

(** A node with its [children] field assigned. *)

Definition set_children (n : node) (cs : list node) : node :=
  Node (item n) (depth n) (remainder n) cs.

(** [t.get(n, item)]. *)
Fixpoint get (n : node) (it : A) {struct n} : res (option A) :=
  match n with
  | Node _ d _ cs =>
      r ← modulo (Key it) d;
      '(ok, lft, _) ← search cs r;
      if (ok : bool) then
        with_index cs lft (fun child =>
          k ← item_key child;
          if k =? Key it then Ok (item child)
          else get child it)
      else Ok None
  end.

(** [t.put(n, item)]: the node after the call, the counters after the
    call and the returned item. *)
Fixpoint put (n : node) (it : A) (st : counters) {struct n}
  : res (node * counters * option A) :=
  match n with
  | Node ni d rm cs =>
      r ← modulo (Key it) d;
      '(ok, lft, rgt) ← search cs r;
      if (ok : bool) then
        with_index cs lft (fun child =>
          k ← item_key child;
          if k =? Key it then
            Ok (Node ni d rm cs, incr_conflicts st, item child)
          else
            '(child', st', out) ← put child it st;
            Ok (Node ni d rm (<[Z.to_nat lft := child']> cs), st', out))
      else if int8 (len primes - 1) <=? d then
        Ok (Node ni d rm cs, st, None)
      else
        let child := newNode (Some it) (int8 (d + 1)) r in
        cs' ← (if len cs =? 0 then Ok (cs ++ [child])
               else if rgt =? len cs - 1 then
                 (last ← index cs rgt;
                  if remainder last <=? r then Ok (cs ++ [child])
                  else insert_at cs rgt child)
               else insert_at cs rgt child);
        Ok (Node ni d rm cs', incr_length st, item child)
  end.

(** The loop of [delete] that finds the leaf on the branch of [father]
    by following first children, and [father.children.delete(0)] at the
    leaf's father: the leaf, and [father] after the call. *)
Fixpoint detach_leaf (father : node) {struct father} : res (node * node) :=
  match father with
  | Node fi d rm cs =>
      match cs with
      | [] => Err IndexOutOfRange
      | leaf :: rest =>
          if len (children leaf) =? 0 then
            cs' ← delete_at cs 0;
            Ok (leaf, Node fi d rm cs')
          else
            '(lf, leaf') ← detach_leaf leaf;
            Ok (lf, Node fi d rm (leaf' :: rest))
      end
  end.

(** [t.delete(n, item)]. *)
Fixpoint delete (n : node) (it : A) (st : counters) {struct n}
  : res (node * counters * option A) :=
  match n with
  | Node ni d rm cs =>
      r ← modulo (Key it) d;
      '(ok, lft, _) ← search cs r;
      if (ok : bool) then
        with_index cs lft (fun child =>
          k ← item_key child;
          if k =? Key it then
            cs' ← (if len (children child) =? 0 then delete_at cs lft
                   else
                     '(leaf, child') ← detach_leaf child;
                     let repl := newNode (item leaf) (depth child)
                                         (remainder child) in
                     Ok (<[Z.to_nat lft :=
                             set_children repl (children child')]> cs));
            Ok (Node ni d rm cs', decr_length st, item child)
          else
            '(child', st', out) ← delete child it st;
            Ok (Node ni d rm (<[Z.to_nat lft := child']> cs), st', out))
      else Ok (Node ni d rm cs, st, None)
  end.

(** [type HTree struct { root; length; conflicts }]. *)
Record HTree := mkHTree { root : node; length_ : Z; conflicts_ : Z }.

(** [New()]: [&HTree{root: &node{}}]. *)
Definition New : HTree := mkHTree (Node None 0 0 []) 0 0.

Definition Len (t : HTree) : Z := length_ t.
Definition Conflicts (t : HTree) : Z := conflicts_ t.

Definition counters_of (t : HTree) : counters :=
  Counters (length_ t) (conflicts_ t).

(** [t.Get(item)]: the tree is handed back as the call leaves it. *)
Definition Get (t : HTree) (it : A) : res (HTree * option A) :=
  out ← get (root t) it;
  Ok (t, out).

(** [t.Put(item)]. *)
Definition Put (t : HTree) (it : A) : res (HTree * option A) :=
  '(n, st, out) ← put (root t) it (counters_of t);
  Ok (mkHTree n (c_length st) (c_conflicts st), out).

(** [t.Delete(item)]. *)
Definition Delete (t : HTree) (it : A) : res (HTree * option A) :=
  '(n, st, out) ← delete (root t) it (counters_of t);
  Ok (mkHTree n (c_length st) (c_conflicts st), out).

(** [PutAll]: the loop [for _, it := range its { t.Put(it) }] of the tests. *)
Fixpoint PutAll (t : HTree) (its : list A) : res HTree :=
  match its with
  | [] => Ok t
  | it :: rest => '(t', _) ← Put t it; PutAll t' rest
  end.

(** The same loop, keeping what every [Put] returned. *)
Fixpoint PutEach (t : HTree) (its : list A) : res (HTree * list (option A)) :=
  match its with
  | [] => Ok (t, [])
  | it :: rest =>
      '(t', out) ← Put t it;
      '(t'', outs) ← PutEach t' rest;
      Ok (t'', out :: outs)
  end.

(** ** The iterator *)

(** [type Iterator struct { t; fathers; indexes; n; i }]. *)
Record Iterator := mkIterator {
  iter_t : HTree;
  iter_fathers : list node;
  iter_indexes : list Z;
  iter_n : node;
  iter_i : Z
}.

(** [t.NewIterator()]. *)
Definition NewIterator (t : HTree) : Iterator := mkIterator t [] [] (root t) 0.

(** [s[:h]]. *)
Definition slice_to {X} (s : list X) (h : Z) : res (list X) :=
  if decide (0 <= h <= len s) then Ok (take (Z.to_nat h) s)
  else Err IndexOutOfRange.

(** The loop [for len(iter.fathers) > 0 { ... }] of [Next]: every turn
    that does not return pops one father. *)
Fixpoint Next_loop (fuel : nat) (iter : Iterator) : res (Iterator * bool) :=
  if 0 <? len (iter_fathers iter) then
    match fuel with
    | O => Err OutOfFuel
    | S fuel' =>
        let l := len (iter_fathers iter) in
        father ← index (iter_fathers iter) (l - 1);
        if iter_i iter <? len (children father) - 1 then
          let i' := iter_i iter + 1 in
          n' ← index (children father) i';
          Ok (mkIterator (iter_t iter) (iter_fathers iter) (iter_indexes iter)
                         n' i', true)
        else
          fathers' ← slice_to (iter_fathers iter) (l - 1);
          indexes' ← slice_to (iter_indexes iter) (l - 1);
          i' ← index (iter_indexes iter) (l - 1);
          Next_loop fuel' (mkIterator (iter_t iter) fathers' indexes'
                                      (iter_n iter) i')
    end
  else Ok (iter, false).

(** [iter.Next()]. *)
Definition Next (iter : Iterator) : res (Iterator * bool) :=
  if 0 <? len (children (iter_n iter)) then
    child ← index (children (iter_n iter)) 0;
    Ok (mkIterator (iter_t iter)
                   (iter_fathers iter ++ [iter_n iter])
                   (iter_indexes iter ++ [iter_i iter])
                   child 0, true)
  else Next_loop (length (iter_fathers iter)) iter.

(** [iter.Item()]. *)
Definition Iterator_Item (iter : Iterator) : option A := item (iter_n iter).

(** [for iter.Next() { ... iter.Item() ... }], at most [fuel] calls of
    [Next]: the items seen, and whether [Next] has returned false. *)
Fixpoint drain (fuel : nat) (iter : Iterator) : res (list (option A) * bool) :=
  match fuel with
  | O => Ok ([], false)
  | S fuel' =>
      '(iter', more) ← Next iter;
      if (more : bool) then
        '(xs, finished) ← drain fuel' iter';
        Ok (Iterator_Item iter' :: xs, finished)
      else Ok ([], true)
  end.

(** [Next] called [k] times, whatever it returns. *)
Fixpoint drain_to (k : nat) (iter : Iterator) : res Iterator :=
  match k with
  | O => Ok iter
  | S k' => '(iter', _) ← Next iter; drain_to k' iter'
  end.

(** ** Specification side *)

(** The nodes of a subtree in pre-order, the subtree's root first. *)
Fixpoint nodes (n : node) : list node :=
  match n with
  | Node _ _ _ cs => n :: (cs ≫= nodes)
  end.

(** The item slots of a subtree in pre-order. *)
Fixpoint node_slots (n : node) : list (option A) :=
  match n with
  | Node it _ _ cs => it :: (cs ≫= node_slots)
  end.

(** The items stored in a subtree, in pre-order. *)
Fixpoint node_items (n : node) : list A :=
  match n with
  | Node it _ _ cs => from_option (fun a => [a]) [] it ++ (cs ≫= node_items)
  end.

(** The item slots below a node, in pre-order. *)
Definition forest_slots (cs : list node) : list (option A) :=
  cs ≫= node_slots.

(** What an iterator has still to visit once the subtree of its current
    node is done: for every father on the stack, from the top down, the
    siblings to the right of the position in that father's array. *)
Fixpoint pending_stack (fs : list node) (ixs : list Z) (i : Z)
  : list (option A) :=
  match fs, ixs with
  | f :: fs', ix :: ixs' =>
      forest_slots (drop (Z.to_nat (i + 1)) (children f)) ++
      pending_stack fs' ixs' ix
  | _, _ => []
  end.

(** The slots a well-positioned iterator has still to yield. *)
Definition remaining (iter : Iterator) : list (option A) :=
  forest_slots (children (iter_n iter)) ++
  pending_stack (reverse (iter_fathers iter)) (reverse (iter_indexes iter))
                (iter_i iter).

(** Positions of an iterator: one index per father, none negative. *)
Definition positioned (iter : Iterator) : Prop :=
  length (iter_fathers iter) = length (iter_indexes iter) /\
  0 <= iter_i iter /\ Forall (fun ix => 0 <= ix) (iter_indexes iter).

(** The items stored below a node. *)
Definition forest_items (cs : list node) : list A := cs ≫= node_items.

(** The stored items of a tree: everything below the sentinel root. *)
Definition Items (t : HTree) : list A := forest_items (children (root t)).

(** A children array strictly ascending by remainder. *)
Definition sorted (cs : list node) : Prop :=
  StronglySorted (fun a b => remainder a < remainder b) cs.

(** What a father at depth [d] asks of a child: it sits one level
    deeper, holds an item, and every key of its subtree leaves the
    child's remainder at the father's prime. *)
Definition child_ok (d : Z) (c : node) : Prop :=
  depth c = d + 1 /\ is_Some (item c) /\
  forall a, a ∈ node_items c -> modulo (Key a) d = Ok (remainder c).

(** The structural invariant of a subtree. *)
Fixpoint wf_node (n : node) : Prop :=
  match n with
  | Node _ d _ cs =>
      0 <= d < len primes /\ sorted cs /\
      (fix all (l : list node) : Prop :=
         match l with
         | [] => True
         | c :: l' => (child_ok d c /\ wf_node c) /\ all l'
         end) cs
  end.

(** The invariant of a tree. *)
Definition wf (t : HTree) : Prop :=
  depth (root t) = 0 /\ wf_node (root t) /\
  NoDup (Key <$> Items t) /\
  length_ t = len (Items t) /\
  - 2 ^ 63 <= conflicts_ t < 2 ^ 63.

(** The trees a program can build: a fresh tree, and what [Put] and
    [Delete] make of a tree already built. *)
Inductive reachable : HTree -> Prop :=
| reachable_New : reachable New
| reachable_Put t it t' out :
    reachable t -> Put t it = Ok (t', out) -> reachable t'
| reachable_Delete t it t' out :
    reachable t -> Delete t it = Ok (t', out) -> reachable t'.

(** Sibling-array invariant: in every node's children array the
    remainders are pairwise distinct and ascending. *)
Definition sibling_inv (t : HTree) : Prop :=
  forall n, n ∈ nodes (root t) ->
    NoDup (remainder <$> children n) /\
    Sorted Z.le (remainder <$> children n).

(** [reaches n path x]: [x] is a proper descendant of [n]; [path] lists,
    for every ancestor of [x] from [n] down, the ancestor's depth and
    the remainder of its child on the way to [x]. *)
Inductive reaches : node -> list (Z * Z) -> node -> Prop :=
| reaches_child n c :
    c ∈ children n -> reaches n [(depth n, remainder c)] c
| reaches_below n c path x :
    c ∈ children n -> reaches c path x ->
    reaches n ((depth n, remainder c) :: path) x.

(** Path consistency: the key of every reachable node reproduces, at
    the prime of every ancestor's depth, the remainders on its path. *)
Definition path_consistent (t : HTree) : Prop :=
  forall path x a, reaches (root t) path x -> item x = Some a ->
    Forall (fun dr => modulo (Key a) (fst dr) = Ok (snd dr)) path.

(** Every stored item is found by [Get]. *)
Definition findable (t : HTree) : Prop :=
  forall a, a ∈ Items t -> Get t a = Ok (t, Some a).

(** [path_match k n]: some node on the residue path of key [k] below
    [n] holds the key [k]. *)
Inductive path_match (k : Z) : node -> Prop :=
| path_match_here n c a :
    c ∈ children n -> modulo k (depth n) = Ok (remainder c) ->
    item c = Some a -> Key a = k -> path_match k n
| path_match_below n c :
    c ∈ children n -> modulo k (depth n) = Ok (remainder c) ->
    path_match k c -> path_match k n.

(** The leaf reached from a node by following first children. *)
Fixpoint first_leaf (n : node) : node :=
  match n with
  | Node _ _ _ cs =>
      match cs with
      | [] => n
      | c :: _ => first_leaf c
      end
  end.

(** A node after its [first_leaf] is detached from the leaf's father. *)
Fixpoint without_first_leaf (n : node) : node :=
  match n with
  | Node it d r cs =>
      match cs with
      | [] => n
      | c :: rest =>
          match children c with
          | [] => Node it d r rest
          | _ :: _ => Node it d r (without_first_leaf c :: rest)
          end
      end
  end.

(** A node that differs from another in its children only. *)
Definition same_header (n n' : node) : Prop :=
  item n' = item n /\ depth n' = depth n /\ remainder n' = remainder n.

(** The three outcomes of [put] at a node: the key is below the node
    already, the item is stored below the node, or no level is left. *)
Inductive put_outcome (n : node) (it : A) (st : counters)
  : node -> counters -> option A -> Prop :=
| put_reused a :
    a ∈ forest_items (children n) -> Key a = Key it ->
    put_outcome n it st n (incr_conflicts st) (Some a)
| put_inserted n' :
    (forall a, a ∈ forest_items (children n) -> Key a <> Key it) ->
    same_header n n' -> wf_node n' ->
    forest_items (children n') ≡ₚ it :: forest_items (children n) ->
    put_outcome n it st n' (incr_length st) (Some it)
| put_overflow :
    (forall a, a ∈ forest_items (children n) -> Key a <> Key it) ->
    put_outcome n it st n st None.

(** The two outcomes of [delete] at a node. *)
Inductive delete_outcome (n : node) (it : A) (st : counters)
  : node -> counters -> option A -> Prop :=
| delete_removed n' a :
    a ∈ forest_items (children n) -> Key a = Key it ->
    same_header n n' -> wf_node n' ->
    forest_items (children n) ≡ₚ a :: forest_items (children n') ->
    delete_outcome n it st n' (decr_length st) (Some a)
| delete_absent :
    (forall a, a ∈ forest_items (children n) -> Key a <> Key it) ->
    delete_outcome n it st n st None.

End HTree.

Arguments node A : clear implicits.
Arguments HTree A : clear implicits.
Arguments Iterator A : clear implicits.

(** ** The tree in memory *)

(** The operations above hand a tree over as a value.  To say what a
    call leaves untouched, the nodes are laid out here as the code has
    them: structs in memory, reached through pointers, with the fields
    of the [HTree] beside them.  [get] is written over this memory, in a
    state monad whose computations may read and write it. *)

Section Memory.

Context {A : Type} `{ItemA : Item A}.

(** A [*node]: nil, or the address of a node. *)
Definition ptr : Type := option positive.

(** A [node] in memory: its children are pointers. *)
Record hnode := HNode {
  h_item : option A;
  h_depth : Z;
  h_remainder : Z;
  h_children : list ptr
}.

(** The memory of one tree: the nodes by address, and the fields
    [root], [length] and [conflicts] of the [HTree]. *)
Record memory := Memory {
  m_nodes : gmap positive hnode;
  m_root : ptr;
  m_length : Z;
  m_conflicts : Z
}.

(** Computations over the memory that may panic. *)
Definition M (X : Type) : Type := memory -> res (X * memory).

Definition M_ret {X} (x : X) : M X := fun m => Ok (x, m).

Definition M_bind {X Y} (c : M X) (k : X -> M Y) : M Y := fun m =>
  match c m with
  | Ok (x, m') => k x m'
  | Err e => Err e
  end.

(** A computation that does not touch the memory. *)
Definition lift {X} (r : res X) : M X := fun m =>
  match r with
  | Ok x => Ok (x, m)
  | Err e => Err e
  end.

(** Reading the node a pointer points to; nil and dangling pointers
    panic. *)
Definition load (p : ptr) : M hnode := fun m =>
  match p with
  | Some l =>
      match m_nodes m !! l with
      | Some nd => Ok (nd, m)
      | None => Err NilDereference
      end
  | None => Err NilDereference
  end.

(** The loop of [children.search], reading the remainders from memory. *)
Fixpoint hsearch_loop (fuel : nat) (s : list ptr) (r left right : Z)
  : M (Z * Z) :=
  if left <? right then
    match fuel with
    | O => lift (Err OutOfFuel)
    | S fuel' =>
        let mid := Z.shiftr (left + right) 1 in
        M_bind (lift (index s mid)) (fun p =>
        M_bind (load p) (fun child =>
        if h_remainder child <? r
        then hsearch_loop fuel' s r (mid + 1) right
        else hsearch_loop fuel' s r left mid))
    end
  else M_ret (left, right).

(** [children.search(r)] over the memory. *)
Definition hsearch (s : list ptr) (r : Z) : M (bool * Z * Z) :=
  M_bind (hsearch_loop (length s) s r 0 (len s - 1)) (fun lr =>
  let '(lft, rgt) := lr in
  if lft =? rgt then
    M_bind (lift (index s lft)) (fun p =>
    M_bind (load p) (fun child =>
    if r =? h_remainder child then M_ret (true, lft, rgt)
    else M_ret (false, lft, rgt)))
  else M_ret (false, lft, rgt)).

(** [child.item.Key()] on a node read from memory. *)
Definition hitem_key (nd : hnode) : res Z :=
  match h_item nd with
  | Some a => Ok (Key a)
  | None => Err NilDereference
  end.

(** [t.get(n, item)] over the memory; [fuel] bounds the depth of the
    recursion. *)
Fixpoint hget (fuel : nat) (n : ptr) (it : A) : M (option A) :=
  match fuel with
  | O => lift (Err OutOfFuel)
  | S fuel' =>
      M_bind (load n) (fun nd =>
      M_bind (lift (modulo (Key it) (h_depth nd))) (fun r =>
      M_bind (hsearch (h_children nd) r) (fun found =>
      let '(ok, lft, _) := found in
      if (ok : bool) then
        M_bind (lift (index (h_children nd) lft)) (fun p =>
        M_bind (load p) (fun child =>
        M_bind (lift (hitem_key child)) (fun k =>
        if k =? Key it then M_ret (h_item child)
        else hget fuel' p it)))
      else M_ret None)))
  end.

(** [t.Get(item)] over the memory: [t.get(t.root, item)]. *)
Definition HGet (fuel : nat) (it : A) : M (option A) := fun m =>
  hget fuel (m_root m) it m.

(** A pointer into the memory represents a node: the struct at the
    address has the node's fields, and its children pointers represent
    the node's children. *)
Inductive represents_node (nodes : gmap positive hnode)
  : ptr -> node A -> Prop :=
| represents_intro l nd n :
    nodes !! l = Some nd ->
    h_item nd = item n -> h_depth nd = depth n ->
    h_remainder nd = remainder n ->
    Forall2 (represents_node nodes) (h_children nd) (children n) ->
    represents_node nodes (Some l) n.

(** A memory represents a tree. *)
Definition represents (m : memory) (t : HTree A) : Prop :=
  represents_node (m_nodes m) (m_root m) (root t) /\
  m_length m = length_ t /\ m_conflicts m = conflicts_ t.

End Memory.

Arguments hnode A : clear implicits.
Arguments memory A : clear implicits.

(** ** Inputs of the scenarios *)

Definition U (z : Z) : Uint32 := mkUint32 z.

(** The product of the first nine primes of the ladder. *)
Definition nine_primes : Z := 2 * 3 * 5 * 7 * 11 * 13 * 17 * 19 * 23.

(** Ten distinct keys with equal remainders at the first nine primes. *)
Definition colliding_keys : list Uint32 :=
  (fun k => U (k * nine_primes)) <$> [0; 1; 2; 3; 4; 5; 6; 7; 8; 9].

(** The tree built by putting the items of a list into a fresh tree. *)
Definition tree_of {A} `{Item A} (its : list A) : HTree A :=
  match PutAll New its with
  | Ok t => t
  | Err _ => New
  end.

(** The tree of [TestTreeInside]: keys 0 to 9. *)
Definition tree_0_9 : HTree Uint32 :=
  Eval vm_compute in tree_of (U <$> [0; 1; 2; 3; 4; 5; 6; 7; 8; 9]).

(** The tree of [TestDeleteReplace]: keys 0 to 8, then 42. *)
Definition tree_delete_replace : HTree Uint32 :=
  Eval vm_compute in tree_of (U <$> [0; 1; 2; 3; 4; 5; 6; 7; 8; 42]).

(** The node of key 0 in [tree_delete_replace]. *)
Definition node_of_key_0 : node Uint32 :=
  Eval vm_compute in
    match children (root tree_delete_replace) with
    | c :: _ => c
    | [] => root tree_delete_replace
    end.

(** The tree of [TestDeleteLeaf]: keys 0 to 7. *)
Definition tree_0_7 : HTree Uint32 :=
  Eval vm_compute in tree_of (U <$> [0; 1; 2; 3; 4; 5; 6; 7]).

(** Item, remainder and depth of a node, and the items of its children. *)
Definition summary (n : node Uint32)
  : option Uint32 * Z * Z * list (option Uint32) :=
  (item n, remainder n, depth n, item <$> children n).

(** The first nine of the [colliding_keys], put into a fresh tree. *)
Definition tree_colliding_9 : HTree Uint32 :=
  Eval vm_compute in tree_of (take 9 colliding_keys).

(** The items that fit into subtrees with the fan-outs [ps], level by
    level: [p] nodes, each holding one item above such subtrees. *)
Fixpoint capacity_below (ps : list Z) : Z :=
  match ps with
  | [] => 0
  | p :: ps' => p * (1 + capacity_below ps')
  end.

(** The items that fit below a node of depth [d]: the nodes at the
    depths 0 to 8 have at most as many children as their prime, the
    nodes at depth 9 have none. *)
Definition capacity (d : Z) : Z :=
  capacity_below (drop (Z.to_nat d) (take 9 primes)).

(** A tree of two levels: keys 0, 1, 2. *)
Definition tree_0_2 : HTree Uint32 :=
  Eval vm_compute in tree_of (U <$> [0; 1; 2]).

(** [tree_0_2] laid out in memory: the root at address 1, the nodes of
    the keys 0, 1 and 2 at the addresses 2, 3 and 4. *)
Definition memory_0_2 : memory Uint32 :=
  Memory
    (list_to_map
       [(1%positive, HNode None 0 0 [Some 2%positive; Some 3%positive]);
        (2%positive, HNode (Some (U 0)) 1 0 [Some 4%positive]);
        (3%positive, HNode (Some (U 1)) 1 1 []);
        (4%positive, HNode (Some (U 2)) 2 2 [])])
    (Some 1%positive) 3 0.

(** The node of key 1 in [tree_0_7]: its children hold 3, 7 and 5. *)
Definition node_of_key_1 : node Uint32 :=
  Eval vm_compute in
    match children (root tree_0_7) with
    | _ :: c :: _ => c
    | _ => root tree_0_7
    end.

(** An iterator over [tree_0_9] after ten calls of [Next], on the last
    node, and the iterator one more call leaves. *)
Definition last_0_9 : Iterator Uint32 :=
  Eval vm_compute in
    match drain_to 10 (NewIterator tree_0_9) with
    | Ok iter => iter
    | Err _ => NewIterator tree_0_9
    end.

Definition after_last_0_9 : Iterator Uint32 :=
  Eval vm_compute in
    match drain_to 11 (NewIterator tree_0_9) with
    | Ok iter => iter
    | Err _ => NewIterator tree_0_9
    end.

(** The tree of [htree_example.go]: one item, key 123. *)
Definition example_tree : HTree KeyValue :=
  Eval vm_compute in tree_of [mkKeyValue 123 "data1"%string].

(** * Properties *)

(** ** Slices and machine integers *)

Lemma index_lookup {X} (s : list X) i x :
  0 <= i -> s !! Z.to_nat i = Some x -> index s i = Ok x.
Proof.
  intros Hi Hx. unfold index. rewrite decide_True by done. by rewrite Hx.
Qed.

Lemma index_Ok_inv {X} (s : list X) i x :
  index s i = Ok x -> 0 <= i < len s /\ s !! Z.to_nat i = Some x.
Proof.
  unfold index, len. case_decide; [|done].
  destruct (s !! Z.to_nat i) eqn:E; [|done].
  intros [= ->]. apply lookup_lt_Some in E as Hlt. split; [lia|done].
Qed.

Lemma index_in_range {X} (s : list X) i :
  0 <= i < len s -> exists x, index s i = Ok x /\ s !! Z.to_nat i = Some x.
Proof.
  intros Hi. unfold len in Hi.
  destruct (lookup_lt_is_Some_2 s (Z.to_nat i)) as [x Hx]; [lia|].
  exists x. split; [|done]. apply index_lookup; [lia|done].
Qed.

Lemma at_index_lookup {X Y} (k : X -> res Y) s i :
  at_index k s i =
  match s !! i with Some x => k x | None => Err IndexOutOfRange end.
Proof.
  revert i. induction s as [|x s IH]; intros [|i]; simpl; try done.
Qed.

Lemma with_index_lookup {X Y} (s : list X) i x (k : X -> res Y) :
  0 <= i -> s !! Z.to_nat i = Some x -> with_index s i k = k x.
Proof.
  intros Hi Hx. unfold with_index. rewrite decide_True by done.
  by rewrite at_index_lookup, Hx.
Qed.

Lemma int8_small z : -128 <= z < 128 -> int8 z = z.
Proof. intros Hz. unfold int8. rewrite Z.mod_small; lia. Qed.

Lemma int_wrap_small z : - 2 ^ 63 <= z < 2 ^ 63 -> int_wrap z = z.
Proof. intros Hz. unfold int_wrap. rewrite Z.mod_small; lia. Qed.

Lemma int_wrap_range z : - 2 ^ 63 <= int_wrap z < 2 ^ 63.
Proof.
  unfold int_wrap.
  pose proof (Z.mod_pos_bound (z + 2 ^ 63) (2 ^ 64) eq_refl). lia.
Qed.

Lemma len_primes : len primes = 10.
Proof. reflexivity. Qed.

Lemma primes_index d :
  0 <= d < len primes -> exists p, index primes d = Ok p /\ 2 <= p <= 29.
Proof.
  rewrite len_primes. intros Hd.
  assert (Hc : d = 0 \/ d = 1 \/ d = 2 \/ d = 3 \/ d = 4 \/ d = 5 \/
               d = 6 \/ d = 7 \/ d = 8 \/ d = 9) by lia.
  destruct Hc as [->|[->|[->|[->|[->|[->|[->|[->|[->| ->]]]]]]]]];
    (eexists; split; [reflexivity|lia]).
Qed.

Lemma modulo_eq key d :
  0 <= d < len primes ->
  exists p, index primes d = Ok p /\ 2 <= p <= 29 /\
            modulo key d = Ok (key mod p).
Proof.
  intros Hd. destruct (primes_index d Hd) as (p & Hp & Hr).
  exists p. split; [done|]. split; [done|].
  unfold modulo. rewrite Hp. simpl. unfold mret, res_ret. f_equal.
  unfold uint32. rewrite (Z.mod_small p) by lia.
  apply int8_small. pose proof (Z.mod_pos_bound key p). lia.
Qed.

Lemma modulo_Ok_inv key d r :
  modulo key d = Ok r -> 0 <= d < len primes /\ 0 <= r < 29.
Proof.
  intros Hm.
  assert (0 <= d < len primes) as Hd.
  { unfold modulo in Hm. destruct (index primes d) as [p|] eqn:Hp; [|done].
    by apply index_Ok_inv in Hp as [Hd _]. }
  split; [done|].
  destruct (modulo_eq key d Hd) as (q & _ & Hr & Hmod).
  rewrite Hm in Hmod. injection Hmod as ->.
  pose proof (Z.mod_pos_bound key q). lia.
Qed.

Section properties.

Context {A : Type} `{ItemA : Item A}.

Implicit Types (n c : node A) (cs l : list (node A)) (t : HTree A) (a it : A).

(** ** Induction on nodes and the shape of the invariant *)

Lemma node_ind' (P : node A -> Prop) :
  (forall ni d r cs, Forall P cs -> P (Node ni d r cs)) ->
  forall n, P n.
Proof.
  intros Hstep. fix IH 1. intros [ni d r cs]. apply Hstep.
  induction cs as [|c cs IHcs]; constructor; [apply IH|exact IHcs].
Qed.

Lemma wf_node_unfold n :
  wf_node n <->
  0 <= depth n < len primes /\ sorted (children n) /\
  Forall (fun c => child_ok (depth n) c /\ wf_node c) (children n).
Proof.
  destruct n as [ni d r cs]. simpl.
  assert ((fix all (l : list (node A)) : Prop :=
             match l with
             | [] => True
             | c :: l' => (child_ok d c /\ wf_node c) /\ all l'
             end) cs <->
          Forall (fun c => child_ok d c /\ wf_node c) cs) as ->; [|done].
  induction cs as [|c cs IH]; [by split|].
  rewrite Forall_cons, IH. done.
Qed.

Lemma sorted_lookup cs (i j : nat) x y :
  sorted cs -> cs !! i = Some x -> cs !! j = Some y -> (i < j)%nat ->
  remainder x < remainder y.
Proof.
  intros Hs. revert i j. induction Hs as [|c cs Hs IH Hall]; intros i j Hi Hj Hlt.
  - done.
  - destruct i as [|i], j as [|j]; simpl in *; try lia.
    + injection Hi as ->. rewrite Forall_forall in Hall.
      apply Hall. by eapply list_elem_of_lookup_2.
    + eapply IH; eauto. lia.
Qed.

(** ** Binary search *)

Lemma shiftr1_bounds lo hi :
  lo < hi -> lo <= Z.shiftr (lo + hi) 1 < hi.
Proof.
  intros Hlt. rewrite Z.shiftr_div_pow2 by lia. change (2 ^ 1) with 2.
  split.
  - apply Z.div_le_lower_bound; lia.
  - apply Z.div_lt_upper_bound; lia.
Qed.

(** The loop ends with [left = right], at the first position whose
    remainder is not below [r], or at the last position. *)
Lemma search_loop_spec fuel cs r lo hi :
  sorted cs ->
  0 <= lo <= hi -> hi < len cs -> hi - lo <= Z.of_nat fuel ->
  (forall (j : nat) x, cs !! j = Some x -> Z.of_nat j < lo -> remainder x < r) ->
  (hi = len cs - 1 \/
   exists x, cs !! Z.to_nat hi = Some x /\ r <= remainder x) ->
  exists k,
    search_loop fuel cs r lo hi = Ok (k, k) /\ lo <= k <= hi /\
    (forall (j : nat) x, cs !! j = Some x -> Z.of_nat j < k -> remainder x < r) /\
    (k = len cs - 1 \/
     exists x, cs !! Z.to_nat k = Some x /\ r <= remainder x).
Proof.
  intros Hs. revert lo hi.
  induction fuel as [|fuel IH]; intros lo hi Hlo Hhi Hfuel Hbelow Habove.
  - assert (lo = hi) as -> by lia.
    exists hi. simpl. rewrite Z.ltb_irrefl. repeat split; auto; lia.
  - simpl. destruct (Z.ltb_spec lo hi) as [Hlt|Hge].
    + pose proof (shiftr1_bounds lo hi Hlt) as Hmid.
      set (mid := Z.shiftr (lo + hi) 1) in *.
      destruct (index_in_range cs mid) as (child & Hidx & Hchild); [lia|].
      rewrite Hidx. simpl.
      destruct (Z.ltb_spec (remainder child) r) as [Hc|Hc].
      * destruct (IH (mid + 1) hi) as (k & Hk & Hkr & Hkb & Hka);
          [lia|lia|lia| |done|].
        { intros j x Hx Hj.
          destruct (decide (j = Z.to_nat mid)) as [->|Hne].
          - rewrite Hchild in Hx. by injection Hx as <-.
          - pose proof (sorted_lookup cs j (Z.to_nat mid) x child Hs Hx Hchild).
            lia. }
        exists k. repeat split; auto; lia.
      * destruct (IH lo mid) as (k & Hk & Hkr & Hkb & Hka);
          [lia|lia|lia|done| |].
        { right. by exists child. }
        exists k. repeat split; auto; lia.
    + assert (lo = hi) as -> by lia.
      exists hi. repeat split; auto; lia.
Qed.

(** [search] on an empty array. *)
Lemma search_nil r : search (@nil (node A)) r = Ok (false, 0, -1).
Proof. reflexivity. Qed.

(** [search] on a sorted, non-empty array. *)
Lemma search_spec cs r :
  sorted cs -> cs <> [] ->
  exists (k : nat) c,
    cs !! k = Some c /\
    search cs r = Ok (r =? remainder c, Z.of_nat k, Z.of_nat k) /\
    (forall (j : nat) x, cs !! j = Some x -> (j < k)%nat -> remainder x < r) /\
    (Z.of_nat k = len cs - 1 \/ r <= remainder c).
Proof.
  intros Hs Hne.
  assert (0 < len cs) as Hlen.
  { unfold len. destruct cs; [done|simpl; lia]. }
  destruct (search_loop_spec (length cs) cs r 0 (len cs - 1))
    as (k & Hk & Hkr & Hkb & Hka); [done|lia|lia|unfold len; lia| |by left|].
  { intros j x _ Hj. lia. }
  destruct (index_in_range cs k) as (c & Hidx & Hc); [lia|].
  exists (Z.to_nat k), c. rewrite Z2Nat.id by lia.
  split; [done|]. split.
  - unfold search. rewrite Hk. simpl. rewrite Z.eqb_refl, Hidx. simpl.
    by destruct (r =? remainder c).
  - split.
    + intros j x Hx Hj. apply (Hkb j x Hx). lia.
    + destruct Hka as [->|(x & Hx & Hr)]; [by left|].
      right. rewrite Hc in Hx. by injection Hx as <-.
Qed.

(** A sorted array holds at most one child per remainder, and [search]
    finds it. *)
Lemma search_found cs r (i : nat) c :
  sorted cs -> cs !! i = Some c -> remainder c = r ->
  exists rt, search cs r = Ok (true, Z.of_nat i, rt).
Proof.
  intros Hs Hc Hr.
  destruct (search_spec cs r Hs) as (k & c' & Hc' & Hsearch & Hbelow & Habove).
  { intros ->. done. }
  assert (k = i) as ->.
  { destruct (Nat.lt_total k i) as [Hlt|[->|Hgt]]; [|done|].
    - pose proof (sorted_lookup cs k i c' c Hs Hc' Hc Hlt).
      apply lookup_lt_Some in Hc. unfold len in Habove. lia.
    - pose proof (Hbelow i c Hc Hgt). lia. }
  rewrite Hc in Hc'. injection Hc' as <-.
  exists (Z.of_nat i). rewrite Hsearch. subst r. by rewrite Z.eqb_refl.
Qed.

(** What the three answers of [search] mean on a sorted array. *)
Lemma search_cases cs r :
  sorted cs ->
  (exists (i : nat) c rt, search cs r = Ok (true, Z.of_nat i, rt) /\
      cs !! i = Some c /\ remainder c = r) \/
  (exists lft (k : nat), search cs r = Ok (false, lft, Z.of_nat k) /\
      (forall c, c ∈ cs -> remainder c <> r) /\ cs <> [] /\
      (forall (j : nat) x, cs !! j = Some x -> (j < k)%nat -> remainder x < r) /\
      exists c, cs !! k = Some c /\
        ((Z.of_nat k = len cs - 1 /\ remainder c < r) \/ r < remainder c)) \/
  (cs = [] /\ search cs r = Ok (false, 0, -1)).
Proof.
  intros Hs. destruct cs as [|c0 cs0] eqn:Ecs; [by right; right|].
  rewrite <- Ecs in *.
  destruct (search_spec cs r Hs) as (k & c & Hc & Hsearch & Hbelow & Habove).
  { by rewrite Ecs. }
  destruct (Z.eqb_spec r (remainder c)) as [Heq|Hneq].
  - left. by exists k, c, (Z.of_nat k).
  - right; left. exists (Z.of_nat k), k. split; [done|].
    assert ((Z.of_nat k = len cs - 1 /\ remainder c < r) \/ r < remainder c)
      as Hpos by lia.
    split; [|split; [by rewrite Ecs|split; [done|by exists c]]].
    intros x Hx Hxr. apply list_elem_of_lookup in Hx as [j Hj].
    destruct (Nat.lt_total j k) as [Hlt|[->|Hgt]].
    + pose proof (Hbelow j x Hj Hlt). lia.
    + rewrite Hc in Hj. injection Hj as <-. lia.
    + pose proof (sorted_lookup cs k j c x Hs Hc Hj Hgt) as Hlt.
      destruct Hpos as [[Hlast _]|Hpos]; [|lia].
      apply lookup_lt_Some in Hj. unfold len in Hlast. lia.
Qed.

(** ** Arrays split at a position *)

Lemma lookup_split {X} (s : list X) (i : nat) x :
  s !! i = Some x -> exists l1 l2 : list X, s = l1 ++ x :: l2 /\ length l1 = i.
Proof.
  intros Hx. exists (take i s), (drop (S i) s). split.
  - by rewrite take_drop_middle.
  - rewrite length_take. apply lookup_lt_Some in Hx. lia.
Qed.

Lemma insert_middle {X} (l1 l2 : list X) x y :
  <[length l1 := y]> (l1 ++ x :: l2) = l1 ++ y :: l2.
Proof. induction l1 as [|z l1 IH]; simpl; [done|]. by f_equal. Qed.

Lemma delete_at_middle (l1 l2 : list (node A)) c :
  delete_at (l1 ++ c :: l2) (Z.of_nat (length l1)) = Ok (l1 ++ l2).
Proof.
  unfold delete_at, len. rewrite decide_True.
  - replace (Z.to_nat (Z.of_nat (length l1) + 1)) with (S (length l1)) by lia.
    rewrite Nat2Z.id. rewrite take_app_length. f_equal. f_equal.
    change (l1 ++ c :: l2) with (l1 ++ [c] ++ l2).
    rewrite app_assoc. apply drop_app_length'. rewrite length_app. simpl. lia.
  - rewrite length_app. simpl. lia.
Qed.

Lemma insert_at_middle (l1 l2 : list (node A)) c :
  insert_at (l1 ++ l2) (Z.of_nat (length l1)) c = Ok (l1 ++ c :: l2).
Proof.
  unfold insert_at, len. rewrite decide_True.
  - by rewrite Nat2Z.id, take_app_length, drop_app_length.
  - rewrite length_app. lia.
Qed.

(** ** Sorted arrays under insertion, deletion and replacement *)

Lemma sorted_insert_middle (l1 l2 : list (node A)) c :
  sorted (l1 ++ l2) ->
  (forall x, x ∈ l1 -> remainder x < remainder c) ->
  (forall x, x ∈ l2 -> remainder c < remainder x) ->
  sorted (l1 ++ c :: l2).
Proof.
  unfold sorted. rewrite !StronglySorted_app, StronglySorted_cons, Forall_forall.
  intros (Hcross & Hs1 & Hs2) Hlo Hhi. repeat split; auto.
  intros x1 x2 Hx1 [->|Hx2]%elem_of_cons; auto.
Qed.

Lemma sorted_delete_middle (l1 l2 : list (node A)) c :
  sorted (l1 ++ c :: l2) -> sorted (l1 ++ l2).
Proof.
  unfold sorted. rewrite !StronglySorted_app, StronglySorted_cons.
  intros (Hcross & Hs1 & _ & Hs2). repeat split; auto.
  intros x1 x2 Hx1 Hx2. apply Hcross; [done|]. by apply elem_of_cons; right.
Qed.

Lemma sorted_replace_middle (l1 l2 : list (node A)) c c' :
  remainder c' = remainder c ->
  sorted (l1 ++ c :: l2) -> sorted (l1 ++ c' :: l2).
Proof.
  unfold sorted. rewrite !StronglySorted_app, !StronglySorted_cons.
  intros Hr (Hcross & Hs1 & Hall & Hs2). rewrite Hr. repeat split; auto.
  intros x1 x2 Hx1 [->|Hx2]%elem_of_cons.
  - rewrite Hr. apply Hcross; [done|]. by apply elem_of_cons; left.
  - apply Hcross; [done|]. by apply elem_of_cons; right.
Qed.

Lemma sorted_middle_distinct (l1 l2 : list (node A)) c x :
  sorted (l1 ++ c :: l2) -> x ∈ l1 ++ l2 -> remainder x <> remainder c.
Proof.
  unfold sorted. rewrite StronglySorted_app, StronglySorted_cons, Forall_forall.
  intros (Hcross & _ & Hall & _) [Hx|Hx]%elem_of_app.
  - assert (remainder x < remainder c); [|lia].
    apply Hcross; [done|]. by apply elem_of_cons; left.
  - assert (remainder c < remainder x); [|lia]. by apply Hall.
Qed.

(** The slot chosen by [put] for a new child keeps the array sorted. *)
Lemma put_slot cs r lft rgt child :
  sorted cs -> search cs r = Ok (false, lft, rgt) -> remainder child = r ->
  exists cs',
    (if len cs =? 0 then Ok (cs ++ [child])
     else if rgt =? len cs - 1 then
       (last ← index cs rgt;
        if remainder last <=? r then Ok (cs ++ [child])
        else insert_at cs rgt child)
     else insert_at cs rgt child) = Ok cs' /\
    sorted cs' /\ cs' ≡ₚ (child :: cs).
Proof.
  intros Hs Hsearch Hr.
  destruct (search_cases cs r Hs)
    as [(i & c & rt & Hf & _)|[(l & k & Hnf & _ & Hne & Hbelow & c & Hc & Hpos)
                              |[-> _]]].
  - rewrite Hf in Hsearch. done.
  - rewrite Hnf in Hsearch. injection Hsearch as -> <-.
    assert ((len cs =? 0) = false) as ->.
    { apply Z.eqb_neq. unfold len. destruct cs; [done|simpl; lia]. }
    destruct (lookup_split cs k c Hc) as (l1 & l2 & Ecs & Hl1).
    assert (forall x, x ∈ l1 -> remainder x < remainder child) as Hlow.
    { intros x [j Hj]%list_elem_of_lookup. rewrite Hr.
      apply (Hbelow j x).
      - rewrite Ecs, lookup_app_l; [done|]. by eapply lookup_lt_Some.
      - apply lookup_lt_Some in Hj. lia. }
    assert (forall x, x ∈ l2 -> remainder c < remainder x) as Hhigh.
    { intros x Hx. rewrite Ecs in Hs. unfold sorted in Hs.
      apply StronglySorted_app in Hs as (_ & _ & Hs2).
      apply StronglySorted_cons in Hs2 as [Hall _].
      rewrite Forall_forall in Hall. by apply Hall. }
    assert (insert_at cs (Z.of_nat k) child = Ok (l1 ++ child :: c :: l2)) as Hins.
    { rewrite Ecs, <- Hl1. apply (insert_at_middle l1 (c :: l2)). }
    assert (r < remainder c -> sorted (l1 ++ child :: c :: l2)) as Hsorted_ins.
    { intros Hlt. apply sorted_insert_middle; [by rewrite <- Ecs|done|].
      intros x [->|Hx]%elem_of_cons; [lia|]. specialize (Hhigh x Hx). lia. }
    assert (l1 ++ child :: c :: l2 ≡ₚ child :: cs) as Hperm_ins.
    { rewrite Ecs. by rewrite Permutation_middle. }
    assert (remainder c < r -> l2 = [] -> sorted (cs ++ [child])) as Hsorted_app.
    { intros Hlt ->. rewrite Ecs. rewrite Ecs in Hs.
      apply (sorted_insert_middle (l1 ++ [c]) [] child).
      - by rewrite app_nil_r.
      - intros x [Hx| ->%list_elem_of_singleton]%elem_of_app; [by apply Hlow|lia].
      - intros x Hx. by apply elem_of_nil in Hx. }
    assert (cs ++ [child] ≡ₚ child :: cs) as Hperm_app.
    { by rewrite Permutation_app_comm. }
    assert (index cs (Z.of_nat k) = Ok c) as Hidx.
    { apply index_lookup; [lia|by rewrite Nat2Z.id]. }
    rewrite Hidx. simpl.
    destruct (Z.eqb_spec (Z.of_nat k) (len cs - 1)) as [Hlast|Hnlast].
    + assert (l2 = []) as El2.
      { destruct l2 as [|y l2]; [done|]. exfalso. rewrite Ecs in Hlast.
        unfold len in Hlast. rewrite length_app in Hlast. simpl in Hlast. lia. }
      destruct (Z.leb_spec (remainder c) r) as [Hle|Hgt].
      * exists (cs ++ [child]). split; [done|]. split; [|done].
        apply Hsorted_app; [|done]. destruct Hpos as [[_ ?]|?]; lia.
      * exists (l1 ++ child :: c :: l2). split; [done|]. split; [|done].
        apply Hsorted_ins. lia.
    + exists (l1 ++ child :: c :: l2). split; [done|]. split; [|done].
      apply Hsorted_ins. destruct Hpos as [[? _]|?]; lia.
  - exists [child]. simpl. split; [done|]. split; [|done].
    repeat constructor.
Qed.

(** ** Stored items *)

Lemma node_items_eq n :
  node_items n =
  from_option (fun a => [a]) [] (item n) ++ forest_items (children n).
Proof. by destruct n. Qed.

Lemma forest_items_middle l1 l2 c :
  forest_items (l1 ++ c :: l2) =
  forest_items l1 ++ node_items c ++ forest_items l2.
Proof. unfold forest_items. by rewrite bind_app, bind_cons. Qed.

Lemma forest_items_cons c cs :
  forest_items (c :: cs) = node_items c ++ forest_items cs.
Proof. unfold forest_items. by rewrite bind_cons. Qed.

Lemma forest_items_app l1 l2 :
  forest_items (l1 ++ l2) = forest_items l1 ++ forest_items l2.
Proof. unfold forest_items. by rewrite bind_app. Qed.

Lemma elem_of_forest_items a cs :
  a ∈ forest_items cs <-> exists c, c ∈ cs /\ a ∈ node_items c.
Proof.
  unfold forest_items. rewrite list_elem_of_bind.
  split; intros (c & H1 & H2); by exists c.
Qed.

Lemma item_in_node_items c a : item c = Some a -> a ∈ node_items c.
Proof.
  intros Hc. rewrite node_items_eq, Hc. simpl. apply elem_of_cons. by left.
Qed.

(** Items under another child than the one with remainder [r] have a
    key with another remainder. *)
Lemma other_child_key d cs c a it r :
  Forall (fun c => child_ok d c /\ wf_node c) cs ->
  c ∈ cs -> remainder c <> r -> modulo (Key it) d = Ok r ->
  a ∈ node_items c -> Key a <> Key it.
Proof.
  intros Hall Hc Hr Hm Ha Heq. rewrite Forall_forall in Hall.
  destruct (Hall c Hc) as [(_ & _ & Hk) _].
  specialize (Hk a Ha). rewrite Heq, Hm in Hk. congruence.
Qed.

(** No key below a node has the remainder of a key that [search] does
    not find. *)
Lemma absent_when_no_child d cs it r :
  Forall (fun c => child_ok d c /\ wf_node c) cs ->
  modulo (Key it) d = Ok r ->
  (forall c, c ∈ cs -> remainder c <> r) ->
  forall a, a ∈ forest_items cs -> Key a <> Key it.
Proof.
  intros Hall Hm Hnone a (c & Hc & Ha)%elem_of_forest_items.
  eapply other_child_key; eauto.
Qed.

(** ** [put] *)

#[local] Arguments modulo : simpl never.
#[local] Arguments search : simpl never.
#[local] Arguments with_index : simpl never.
#[local] Arguments index : simpl never.
#[local] Arguments insert_at : simpl never.
#[local] Arguments delete_at : simpl never.
#[local] Arguments int8 : simpl never.
#[local] Arguments int_wrap : simpl never.
#[local] Arguments len : simpl never.

Lemma child_ok_items d c a0 :
  child_ok d c -> item c = Some a0 ->
  forall xs : list A,
    (forall a, a ∈ xs -> modulo (Key a) d = Ok (remainder c)) ->
  forall c', same_header c c' ->
    forest_items (children c') ≡ₚ (xs ++ forest_items (children c)) ->
    child_ok d c'.
Proof.
  intros (Hd & Hsome & Hk) Ha0 xs Hl c' (Hi & Hd' & Hr) Hperm.
  split; [congruence|]. split; [by rewrite Hi|].
  intros a Ha. rewrite Hr. rewrite node_items_eq, Hi, Ha0 in Ha. simpl in Ha.
  apply elem_of_cons in Ha as [->|Ha].
  - apply Hk. by apply item_in_node_items.
  - rewrite Hperm in Ha. apply elem_of_app in Ha as [Ha|Ha]; [by apply Hl|].
    apply Hk. rewrite node_items_eq. apply elem_of_app. by right.
Qed.

Lemma put_spec n :
  wf_node n -> forall it st,
  exists n' st' out,
    put n it st = Ok (n', st', out) /\ put_outcome n it st n' st' out.
Proof.
  induction n as [ni d rm cs IH] using node_ind'. intros Hwf it st.
  apply wf_node_unfold in Hwf as (Hd & Hs & Hall). simpl in Hd, Hs, Hall.
  destruct (modulo_eq (Key it) d Hd) as (p & Hp & Hpr & Hm).
  set (r := Key it mod p) in *.
  cbn [put]. rewrite Hm. cbn [mbind res_bind].
  destruct (search_cases cs r Hs)
    as [(i & c & rt & Hf & Hc & Hr)|[(lft & k & Hnf & Hnone & _)|[-> Hnf]]].
  - (* a child has the remainder of the key *)
    rewrite Hf. cbn [mbind res_bind].
    rewrite (with_index_lookup cs (Z.of_nat i) c); [|lia|by rewrite Nat2Z.id].
    destruct (lookup_split cs i c Hc) as (l1 & l2 & -> & <-).
    apply Forall_app in Hall as (Hall1 & Hall2).
    apply Forall_cons in Hall2 as ([Hcok Hcwf] & Hall2).
    apply Forall_app in IH as (_ & IH). apply Forall_cons in IH as (IHc & _).
    pose proof Hcok as (Hcd & [a0 Ha0] & Hck).
    unfold item_key. rewrite Ha0. cbn [mbind res_bind].
    assert (forall a, a ∈ forest_items (l1 ++ l2) -> Key a <> Key it) as Hothers.
    { intros a (c2 & Hc2 & Hac2)%elem_of_forest_items.
      apply (other_child_key d (l1 ++ l2) c2 a it r); auto.
      - apply Forall_app. split; done.
      - rewrite <- Hr. by eapply sorted_middle_distinct. }
    destruct (Z.eqb_spec (Key a0) (Key it)) as [Heq|Hneq].
    + eexists _, _, _. split; [reflexivity|]. apply put_reused; [|done].
      simpl. rewrite forest_items_middle.
      apply elem_of_app; right. apply elem_of_app; left.
      by apply item_in_node_items.
    + destruct (IHc Hcwf it st) as (c' & st' & out & Hput & Hout).
      rewrite Hput. cbn [mbind res_bind].
      rewrite Nat2Z.id, insert_middle.
      eexists _, _, _. split; [reflexivity|].
      assert ((forall a, a ∈ forest_items (children c) -> Key a <> Key it) ->
              forall a, a ∈ forest_items (l1 ++ c :: l2) -> Key a <> Key it)
        as Habsent.
      { intros Hbelow a Ha. rewrite forest_items_middle in Ha.
        rewrite !elem_of_app in Ha. destruct Ha as [Ha|[Hin|Ha]].
        - apply Hothers. rewrite forest_items_app, elem_of_app. by left.
        - rewrite node_items_eq, Ha0 in Hin. simpl in Hin.
          apply elem_of_cons in Hin as [->|Hin]; [done|by apply Hbelow].
        - apply Hothers. rewrite forest_items_app, elem_of_app. by right. }
      inversion Hout as [a Ha Hka|c'' Hbelow Hhdr Hwf' Hperm|Hbelow]; subst.
      * apply put_reused; [|done]. simpl. rewrite forest_items_middle.
        apply elem_of_app; right. apply elem_of_app; left.
        rewrite node_items_eq. apply elem_of_app. by right.
      * apply put_inserted; [by apply Habsent|done| |].
        -- apply wf_node_unfold. simpl. split; [done|].
           destruct Hhdr as (Hi & Hd' & Hr'). split.
           ++ by apply (sorted_replace_middle l1 l2 c c').
           ++ apply Forall_app. split; [done|]. apply Forall_cons.
              split; [|done]. split; [|done].
              apply (child_ok_items d c a0 Hcok Ha0 [it]); [|done|done].
              intros a ->%list_elem_of_singleton. by rewrite Hm, Hr.
        -- simpl. rewrite !forest_items_middle, !node_items_eq.
           destruct Hhdr as (-> & _). rewrite Hperm.
           rewrite Ha0. simpl. solve_Permutation.
      * apply put_overflow. by apply Habsent.
  - (* no child has the remainder: the key is not below this node *)
    rewrite Hnf. cbn [mbind res_bind].
    assert (forall a, a ∈ forest_items cs -> Key a <> Key it) as Habsent.
    { by apply (absent_when_no_child d cs it r). }
    change (int8 (len primes - 1)) with 9.
    destruct (Z.leb_spec 9 d) as [Hfull|Hroom].
    + eexists _, _, _. split; [reflexivity|]. by apply put_overflow.
    + rewrite int8_small by lia.
      destruct (put_slot cs r lft (Z.of_nat k) (newNode (Some it) (d + 1) r) Hs Hnf)
        as (cs' & -> & Hs' & Hperm); [done|].
      cbn [mbind res_bind]. eexists _, _, _. split; [reflexivity|].
      apply put_inserted; [done|done| |].
      * apply wf_node_unfold. simpl. split; [done|]. split; [done|].
        rewrite Hperm. apply Forall_cons. split; [|done]. split.
        -- split; [done|]. split; [by eexists|]. simpl.
           intros a ->%list_elem_of_singleton. done.
        -- apply wf_node_unfold. simpl. rewrite len_primes.
           split; [lia|]. split; constructor.
      * simpl. unfold forest_items. rewrite Hperm. by rewrite bind_cons.
  - (* no children at all *)
    rewrite Hnf. cbn [mbind res_bind].
    change (int8 (len primes - 1)) with 9.
    assert (forall a, a ∈ forest_items (@nil (node A)) -> Key a <> Key it)
      as Habsent.
    { intros a Ha. by apply elem_of_nil in Ha. }
    destruct (Z.leb_spec 9 d) as [Hfull|Hroom].
    + eexists _, _, _. split; [reflexivity|]. by apply put_overflow.
    + rewrite int8_small by lia. cbn.
      eexists _, _, _. split; [reflexivity|].
      apply put_inserted; [done|done| |].
      * apply wf_node_unfold. simpl. split; [done|]. split.
        -- repeat constructor.
        -- apply Forall_cons. split; [|done]. split.
           ++ split; [done|]. split; [by eexists|]. simpl.
              intros a ->%list_elem_of_singleton. done.
           ++ apply wf_node_unfold. simpl. rewrite len_primes.
              split; [lia|]. split; constructor.
      * done.
Qed.

(** ** Leaf promotion *)

Lemma len_0_iff {X} (s : list X) : len s = 0 <-> s = [].
Proof.
  unfold len. destruct s; simpl; split; intros; try done; lia.
Qed.

Lemma first_leaf_no_children n : children (first_leaf n) = [].
Proof.
  induction n as [ni d rm cs IH] using node_ind'.
  destruct cs as [|c rest]; [done|]. simpl.
  by apply Forall_cons in IH as [IHc _].
Qed.

Lemma first_leaf_leaf n : children n = [] -> first_leaf n = n.
Proof. destruct n as [ni d rm cs]. simpl. by intros ->. Qed.

(** The loop of [delete] computes the leaf at the end of the chain of
    first children and detaches it from its father. *)
Lemma detach_leaf_eq n :
  children n <> [] ->
  detach_leaf n = Ok (first_leaf n, without_first_leaf n).
Proof.
  induction n as [ni d rm cs IH] using node_ind'. simpl.
  destruct cs as [|c rest]; [done|]. intros _.
  apply Forall_cons in IH as [IHc _].
  destruct (Z.eqb_spec (len (children c)) 0) as [Hleaf|Hinner].
  - apply len_0_iff in Hleaf. rewrite Hleaf.
    rewrite (first_leaf_leaf c Hleaf).
    change (delete_at (c :: rest) 0) with
      (delete_at ([] ++ c :: rest) (Z.of_nat (length (@nil (node A))))).
    by rewrite delete_at_middle.
  - assert (children c <> []) as Hne by (by rewrite <- len_0_iff).
    rewrite (IHc Hne). cbn [mbind res_bind].
    destruct (children c); done.
Qed.

Lemma child_ok_subset d c c' :
  child_ok d c -> same_header c c' ->
  (forall a, a ∈ node_items c' -> a ∈ node_items c) ->
  child_ok d c'.
Proof.
  intros (Hd & Hsome & Hk) (Hi & Hd' & Hr) Hsub.
  split; [congruence|]. split; [by rewrite Hi|].
  intros a Ha. rewrite Hr. by apply Hk, Hsub.
Qed.

Lemma sorted_tail c cs : sorted (c :: cs) -> sorted cs.
Proof. unfold sorted. rewrite StronglySorted_cons. by intros [_ ?]. Qed.

(** Detaching the first leaf keeps the invariant and moves exactly the
    leaf's item out of the subtree. *)
Lemma without_first_leaf_spec n :
  wf_node n -> children n <> [] ->
  same_header n (without_first_leaf n) /\
  wf_node (without_first_leaf n) /\
  exists lf, item (first_leaf n) = Some lf /\
    forest_items (children n) ≡ₚ
      (lf :: forest_items (children (without_first_leaf n))).
Proof.
  induction n as [ni d rm cs IH] using node_ind'. intros Hwf Hne.
  apply wf_node_unfold in Hwf as (Hd & Hs & Hall). simpl in *.
  destruct cs as [|c rest]; [done|].
  apply Forall_cons in IH as [IHc _].
  apply Forall_cons in Hall as [[Hcok Hcwf] Hall].
  destruct (children c) as [|c1 cs1] eqn:Ec.
  - split; [done|]. split.
    + apply wf_node_unfold. simpl. split; [done|]. split; [|done].
      by eapply sorted_tail.
    + rewrite (first_leaf_leaf c Ec).
      destruct Hcok as (_ & [lf Hlf] & _). exists lf. split; [done|].
      cbn [children]. rewrite forest_items_cons.
      rewrite node_items_eq, Hlf, Ec. done.
  - destruct IHc as (Hhdr & Hwf' & lf & Hlf & Hperm); [done|done|].
    split; [done|]. split.
    + apply wf_node_unfold. simpl. split; [done|]. split.
      * destruct Hhdr as (_ & _ & Hr).
        by apply (sorted_replace_middle [] rest c).
      * apply Forall_cons. split; [|done]. split; [|done].
        apply (child_ok_subset d c); [done|done|].
        intros a. rewrite !node_items_eq. destruct Hhdr as (-> & _).
        rewrite Ec, Hperm. rewrite !elem_of_app, elem_of_cons. tauto.
    + exists lf. split; [done|]. cbn [children].
      rewrite !forest_items_cons, !node_items_eq. destruct Hhdr as (-> & _).
      rewrite Ec, Hperm. solve_Permutation.
Qed.

(** ** [delete] *)

Lemma delete_spec n :
  wf_node n -> forall it st,
  exists n' st' out,
    delete n it st = Ok (n', st', out) /\ delete_outcome n it st n' st' out.
Proof.
  induction n as [ni d rm cs IH] using node_ind'. intros Hwf it st.
  apply wf_node_unfold in Hwf as (Hd & Hs & Hall). simpl in Hd, Hs, Hall.
  destruct (modulo_eq (Key it) d Hd) as (p & Hp & Hpr & Hm).
  set (r := Key it mod p) in *.
  cbn [delete]. rewrite Hm. cbn [mbind res_bind].
  destruct (search_cases cs r Hs)
    as [(i & c & rt & Hf & Hc & Hr)|[(lft & k & Hnf & Hnone & _)|[-> Hnf]]].
  - rewrite Hf. cbn [mbind res_bind].
    rewrite (with_index_lookup cs (Z.of_nat i) c); [|lia|by rewrite Nat2Z.id].
    destruct (lookup_split cs i c Hc) as (l1 & l2 & -> & <-).
    apply Forall_app in Hall as (Hall1 & Hall2).
    apply Forall_cons in Hall2 as ([Hcok Hcwf] & Hall2).
    apply Forall_app in IH as (_ & IH). apply Forall_cons in IH as (IHc & _).
    pose proof Hcok as (Hcd & [a0 Ha0] & Hck).
    unfold item_key. rewrite Ha0. cbn [mbind res_bind].
    assert (forall a, a ∈ forest_items (l1 ++ l2) -> Key a <> Key it) as Hothers.
    { intros a (c2 & Hc2 & Hac2)%elem_of_forest_items.
      apply (other_child_key d (l1 ++ l2) c2 a it r); auto.
      - apply Forall_app. split; done.
      - rewrite <- Hr. by eapply sorted_middle_distinct. }
    assert (a0 ∈ forest_items (l1 ++ c :: l2)) as Ha0in.
    { rewrite forest_items_middle.
      apply elem_of_app; right. apply elem_of_app; left.
      by apply item_in_node_items. }
    destruct (Z.eqb_spec (Key a0) (Key it)) as [Heq|Hneq].
    + (* the child holds the key *)
      destruct (Z.eqb_spec (len (children c)) 0) as [Hleaf|Hinner].
      * apply len_0_iff in Hleaf. rewrite delete_at_middle.
        cbn [mbind res_bind]. eexists _, _, _. split; [reflexivity|].
        apply delete_removed; [done|done|done| |].
        -- apply wf_node_unfold. simpl. split; [done|]. split.
           ++ by eapply sorted_delete_middle.
           ++ apply Forall_app. by split.
        -- cbn [children]. rewrite forest_items_middle, forest_items_app.
           rewrite node_items_eq, Ha0, Hleaf. simpl. solve_Permutation.
      * assert (children c <> []) as Hne by (by rewrite <- len_0_iff).
        rewrite (detach_leaf_eq c Hne). cbn [mbind res_bind].
        rewrite Nat2Z.id, insert_middle.
        destruct (without_first_leaf_spec c Hcwf Hne)
          as (Hhdr & Hwf' & lf & Hlf & Hperm).
        eexists _, _, _. split; [reflexivity|]. rewrite Hlf.
        set (repl := set_children (newNode (Some lf) (depth c) (remainder c))
                                  (children (without_first_leaf c))).
        assert (forall a, a ∈ node_items repl -> a ∈ node_items c) as Hsub.
        { intros a. rewrite (node_items_eq c), Ha0. unfold repl. simpl.
          rewrite Hperm. rewrite !elem_of_cons. tauto. }
        apply delete_removed; [done|done|done| |].
        -- apply wf_node_unfold. simpl. split; [done|]. split.
           ++ by apply (sorted_replace_middle l1 l2 c repl).
           ++ apply Forall_app. split; [done|]. apply Forall_cons.
              split; [|done]. split.
              ** split; [done|]. split; [by eexists|].
                 intros a Ha. apply Hck. by apply Hsub.
              ** apply wf_node_unfold in Hwf' as (Hd' & Hs' & Hall').
                 destruct Hhdr as (_ & Hdep & _). rewrite Hdep in Hd', Hall'.
                 apply wf_node_unfold. simpl. done.
        -- cbn [children]. rewrite !forest_items_middle.
           rewrite (node_items_eq c), Ha0. unfold repl. simpl.
           rewrite Hperm. solve_Permutation.
    + (* another key: next depth *)
      destruct (IHc Hcwf it st) as (c' & st' & out & Hdel & Hout).
      rewrite Hdel. cbn [mbind res_bind].
      rewrite Nat2Z.id, insert_middle.
      eexists _, _, _. split; [reflexivity|].
      inversion Hout as [c'' a Ha Hka Hhdr Hwf' Hperm|Hbelow]; subst.
      * apply delete_removed; [|done|done| |].
        -- simpl. rewrite forest_items_middle.
           apply elem_of_app; right. apply elem_of_app; left.
           rewrite node_items_eq. apply elem_of_app. by right.
        -- apply wf_node_unfold. simpl. split; [done|].
           pose proof Hhdr as (Hi & Hd' & Hr'). split.
           ++ by apply (sorted_replace_middle l1 l2 c c').
           ++ apply Forall_app. split; [done|]. apply Forall_cons.
              split; [|done]. split; [|done].
              apply (child_ok_subset d c); [done|done|].
              intros x. rewrite !node_items_eq, Hi, Hperm.
              rewrite !elem_of_app, elem_of_cons. tauto.
        -- cbn [children]. rewrite !forest_items_middle, !node_items_eq.
           destruct Hhdr as (-> & _). rewrite Hperm. solve_Permutation.
      * apply delete_absent. intros a Ha. cbn [children] in Ha.
        rewrite forest_items_middle in Ha.
        rewrite !elem_of_app in Ha. destruct Ha as [Ha|[Hin|Ha]].
        -- apply Hothers. rewrite forest_items_app, elem_of_app. by left.
        -- rewrite node_items_eq, Ha0 in Hin. simpl in Hin.
           apply elem_of_cons in Hin as [->|Hin]; [done|by apply Hbelow].
        -- apply Hothers. rewrite forest_items_app, elem_of_app. by right.
  - rewrite Hnf. cbn [mbind res_bind].
    eexists _, _, _. split; [reflexivity|]. apply delete_absent.
    by apply (absent_when_no_child d cs it r).
  - rewrite Hnf. cbn [mbind res_bind].
    eexists _, _, _. split; [reflexivity|]. apply delete_absent.
    intros a Ha. by apply elem_of_nil in Ha.
Qed.

(** ** [get] *)

Lemma get_spec n :
  wf_node n -> forall it,
  (exists a, a ∈ forest_items (children n) /\ Key a = Key it /\
             get n it = Ok (Some a)) \/
  ((forall a, a ∈ forest_items (children n) -> Key a <> Key it) /\
   get n it = Ok None).
Proof.
  induction n as [ni d rm cs IH] using node_ind'. intros Hwf it.
  apply wf_node_unfold in Hwf as (Hd & Hs & Hall). simpl in Hd, Hs, Hall.
  destruct (modulo_eq (Key it) d Hd) as (p & Hp & Hpr & Hm).
  set (r := Key it mod p) in *.
  cbn [get children]. rewrite Hm. cbn [mbind res_bind].
  destruct (search_cases cs r Hs)
    as [(i & c & rt & Hf & Hc & Hr)|[(lft & k & Hnf & Hnone & _)|[-> Hnf]]].
  - rewrite Hf. cbn [mbind res_bind].
    rewrite (with_index_lookup cs (Z.of_nat i) c); [|lia|by rewrite Nat2Z.id].
    destruct (lookup_split cs i c Hc) as (l1 & l2 & -> & <-).
    apply Forall_app in Hall as (Hall1 & Hall2).
    apply Forall_cons in Hall2 as ([Hcok Hcwf] & Hall2).
    apply Forall_app in IH as (_ & IH). apply Forall_cons in IH as (IHc & _).
    pose proof Hcok as (Hcd & [a0 Ha0] & Hck).
    unfold item_key. rewrite Ha0. cbn [mbind res_bind].
    destruct (Z.eqb_spec (Key a0) (Key it)) as [Heq|Hneq].
    + left. exists a0. split; [|done]. rewrite forest_items_middle.
      apply elem_of_app; right. apply elem_of_app; left.
      by apply item_in_node_items.
    + destruct (IHc Hcwf it) as [(a & Ha & Hka & Hget)|[Hbelow Hget]].
      * left. exists a. split; [|done]. rewrite forest_items_middle.
        apply elem_of_app; right. apply elem_of_app; left.
        rewrite node_items_eq. apply elem_of_app. by right.
      * right. split; [|done]. intros a Ha.
        rewrite forest_items_middle in Ha.
        assert (forall a, a ∈ forest_items (l1 ++ l2) -> Key a <> Key it)
          as Hothers.
        { intros x (c2 & Hc2 & Hac2)%elem_of_forest_items.
          apply (other_child_key d (l1 ++ l2) c2 x it r); auto.
          - apply Forall_app. split; done.
          - rewrite <- Hr. by eapply sorted_middle_distinct. }
        rewrite !elem_of_app in Ha. destruct Ha as [Ha|[Hin|Ha]].
        -- apply Hothers. rewrite forest_items_app, elem_of_app. by left.
        -- rewrite node_items_eq, Ha0 in Hin. simpl in Hin.
           apply elem_of_cons in Hin as [->|Hin]; [done|by apply Hbelow].
        -- apply Hothers. rewrite forest_items_app, elem_of_app. by right.
  - rewrite Hnf. cbn [mbind res_bind]. right. split; [|done].
    by apply (absent_when_no_child d cs it r).
  - rewrite Hnf. cbn [mbind res_bind]. right. split; [|done].
    intros a Ha. by apply elem_of_nil in Ha.
Qed.

(** ** The residue path of a key *)

Lemma path_match_present k n :
  path_match k n -> exists a, a ∈ forest_items (children n) /\ Key a = k.
Proof.
  induction 1 as [n c a Hc Hm Ha Hk|n c Hc Hm Hpm (a & Ha & Hk)].
  - exists a. split; [|done]. apply elem_of_forest_items.
    exists c. split; [done|]. by apply item_in_node_items.
  - exists a. split; [|done]. apply elem_of_forest_items.
    exists c. split; [done|]. rewrite node_items_eq. apply elem_of_app. by right.
Qed.

Lemma present_path_match n :
  wf_node n -> forall a, a ∈ forest_items (children n) ->
  path_match (Key a) n.
Proof.
  induction n as [ni d rm cs IH] using node_ind'. intros Hwf a Ha.
  apply wf_node_unfold in Hwf as (Hd & Hs & Hall). simpl in Hd, Hs, Hall.
  cbn [children] in Ha. apply elem_of_forest_items in Ha as (c & Hc & Ha).
  rewrite Forall_forall in Hall, IH.
  destruct (Hall c Hc) as [(Hcd & [a0 Ha0] & Hck) Hcwf].
  rewrite node_items_eq, Ha0 in Ha. simpl in Ha.
  apply elem_of_cons in Ha as [->|Ha].
  - apply (path_match_here _ _ c a0); [done| |done|done].
    apply Hck. by apply item_in_node_items.
  - apply (path_match_below _ _ c); [done| |by apply IH].
    apply Hck. rewrite node_items_eq, Ha0. simpl.
    apply elem_of_cons. by right.
Qed.

(** ** Keys and counters of a well-formed tree *)

Lemma NoDup_keys_inj (xs : list A) a b :
  NoDup (Key <$> xs) -> a ∈ xs -> b ∈ xs -> Key a = Key b -> a = b.
Proof.
  intros Hnd [i Hi]%list_elem_of_lookup [j Hj]%list_elem_of_lookup Hk.
  assert (i = j) as ->.
  { apply (NoDup_lookup (Key <$> xs) i j (Key a)); [done| |].
    - by rewrite list_lookup_fmap, Hi.
    - by rewrite list_lookup_fmap, Hj, Hk. }
  congruence.
Qed.

(** Distinct 32-bit keys: at most [2 ^ 32] items. *)
Lemma keys_bound (xs : list A) : NoDup (Key <$> xs) -> len xs <= 2 ^ 32.
Proof.
  intros Hnd.
  assert (Key <$> xs ⊆+ seqZ 0 (2 ^ 32)) as Hsub.
  { apply NoDup_submseteq; [done|].
    intros k (a & -> & _)%list_elem_of_fmap. apply elem_of_seqZ.
    pose proof (Key_range a). lia. }
  apply submseteq_length in Hsub.
  rewrite length_fmap, length_seqZ in Hsub. unfold len. lia.
Qed.

(** ** The operations of the tree *)

Lemma wf_New : wf (@New A).
Proof.
  unfold wf, New, Items. simpl. split; [done|]. split.
  - rewrite len_primes. split; [lia|]. split; [constructor|done].
  - split; [constructor|]. split; [done|lia].
Qed.

Lemma wf_length_range t : wf t -> 0 <= Len t <= 2 ^ 32.
Proof.
  intros (_ & _ & Hnd & Hlen & _). unfold Len. rewrite Hlen.
  pose proof (keys_bound _ Hnd). unfold len in *. lia.
Qed.

Lemma Put_spec t it :
  wf t ->
  exists t' out, Put t it = Ok (t', out) /\ wf t' /\
    ((exists a, a ∈ Items t /\ Key a = Key it /\ out = Some a /\
        t' = mkHTree (root t) (length_ t) (int_wrap (conflicts_ t + 1))) \/
     ((forall a, a ∈ Items t -> Key a <> Key it) /\ out = Some it /\
        Items t' ≡ₚ (it :: Items t) /\
        Len t' = Len t + 1 /\ Conflicts t' = Conflicts t) \/
     ((forall a, a ∈ Items t -> Key a <> Key it) /\ out = None /\ t' = t)).
Proof.
  intros Hwf. pose proof Hwf as (Hroot & Hnode & Hnd & Hlen & Hconf).
  destruct (put_spec (root t) Hnode it (counters_of t))
    as (n' & st' & out & Hput & Hout).
  unfold Put. rewrite Hput. cbn [mbind res_bind].
  eexists _, _. split; [reflexivity|].
  inversion Hout as [a Ha Hka|n'' Habsent Hhdr Hwf' Hperm|Habsent]; subst.
  - split.
    + unfold wf, Items. simpl. repeat split; try done; apply int_wrap_range.
    + left. by exists a.
  - assert (NoDup (Key <$> forest_items (children n'))) as Hnd'.
    { rewrite Hperm. rewrite fmap_cons. apply NoDup_cons. split; [|done].
      intros (a & Hka & Ha)%list_elem_of_fmap. by apply (Habsent a). }
    assert (len (forest_items (children n')) = len (Items t) + 1) as Hlen'.
    { unfold len. rewrite Hperm. simpl. unfold Items. lia. }
    pose proof (keys_bound _ Hnd') as Hbound.
    assert (int_wrap (length_ t + 1) = length_ t + 1) as Hwrap.
    { apply int_wrap_small. rewrite Hlen. unfold len in *. lia. }
    split.
    + unfold wf, Items. simpl. rewrite Hwrap.
      destruct Hhdr as (_ & Hdep & _).
      repeat split; try done; try lia; congruence.
    + right; left. unfold Len, Conflicts, Items. simpl. by rewrite Hwrap.
  - destruct t as [rt ln cf]. simpl in *. split; [done|].
    right; right. done.
Qed.

Lemma Delete_spec t it :
  wf t ->
  exists t' out, Delete t it = Ok (t', out) /\ wf t' /\
    ((exists a, a ∈ Items t /\ Key a = Key it /\ out = Some a /\
        Items t ≡ₚ (a :: Items t') /\
        Len t' = Len t - 1 /\ Conflicts t' = Conflicts t) \/
     ((forall a, a ∈ Items t -> Key a <> Key it) /\ out = None /\ t' = t)).
Proof.
  intros Hwf. pose proof Hwf as (Hroot & Hnode & Hnd & Hlen & Hconf).
  destruct (delete_spec (root t) Hnode it (counters_of t))
    as (n' & st' & out & Hdel & Hout).
  unfold Delete. rewrite Hdel. cbn [mbind res_bind].
  eexists _, _. split; [reflexivity|].
  inversion Hout as [n'' a Ha Hka Hhdr Hwf' Hperm|Habsent]; subst.
  - assert (NoDup (Key <$> forest_items (children n'))) as Hnd'.
    { unfold Items in Hnd. rewrite Hperm, fmap_cons in Hnd.
      by apply NoDup_cons in Hnd as [_ ?]. }
    assert (len (Items t) = len (forest_items (children n')) + 1) as Hlen'.
    { unfold len, Items. rewrite Hperm. simpl. lia. }
    pose proof (keys_bound _ Hnd) as Hbound.
    assert (int_wrap (length_ t - 1) = length_ t - 1) as Hwrap.
    { apply int_wrap_small. rewrite Hlen. unfold len in *. lia. }
    split.
    + unfold wf, Items. simpl. rewrite Hwrap.
      destruct Hhdr as (_ & Hdep & _).
      repeat split; try done; try lia; congruence.
    + left. exists a. unfold Len, Conflicts, Items. simpl. by rewrite Hwrap.
  - destruct t as [rt ln cf]. simpl in *. split; [done|].
    right. done.
Qed.

Lemma Get_spec t it :
  wf t ->
  (exists a, a ∈ Items t /\ Key a = Key it /\ Get t it = Ok (t, Some a)) \/
  ((forall a, a ∈ Items t -> Key a <> Key it) /\ Get t it = Ok (t, None)).
Proof.
  intros (_ & Hnode & _). unfold Get.
  destruct (get_spec (root t) Hnode it) as [(a & Ha & Hka & ->)|[Habs ->]].
  - left. by exists a.
  - by right.
Qed.

Lemma wf_findable t : wf t -> findable t.
Proof.
  intros Hwf a Ha.
  destruct (Get_spec t a Hwf) as [(b & Hb & Hk & ->)|[Habs _]].
  - pose proof Hwf as (_ & _ & Hnd & _).
    by rewrite (NoDup_keys_inj (Items t) b a Hnd Hb Ha Hk).
  - by destruct (Habs a Ha).
Qed.

(** ** The invariants of the specification *)

Lemma reaches_item n path x a :
  reaches n path x -> item x = Some a -> a ∈ forest_items (children n).
Proof.
  induction 1 as [n c Hc|n c path x Hc Hreach IH]; intros Ha.
  - apply elem_of_forest_items. exists c. split; [done|].
    by apply item_in_node_items.
  - apply elem_of_forest_items. exists c. split; [done|].
    rewrite node_items_eq. apply elem_of_app. right. by apply IH.
Qed.

Lemma wf_node_path n path x a :
  wf_node n -> reaches n path x -> item x = Some a ->
  Forall (fun dr => modulo (Key a) (fst dr) = Ok (snd dr)) path.
Proof.
  intros Hwf Hreach. revert Hwf.
  induction Hreach as [n c Hc|n c path x Hc Hreach IH]; intros Hwf Ha.
  - apply wf_node_unfold in Hwf as (_ & _ & Hall).
    rewrite Forall_forall in Hall. destruct (Hall c Hc) as [(_ & _ & Hk) _].
    repeat constructor. simpl. apply Hk. by apply item_in_node_items.
  - apply wf_node_unfold in Hwf as (_ & _ & Hall).
    rewrite Forall_forall in Hall. destruct (Hall c Hc) as [(_ & _ & Hk) Hcwf].
    constructor; [|by apply IH]. simpl. apply Hk.
    rewrite node_items_eq. apply elem_of_app. right.
    by eapply reaches_item.
Qed.

Lemma wf_path_consistent t : wf t -> path_consistent t.
Proof.
  intros (_ & Hnode & _) path x a Hreach Ha. by eapply wf_node_path.
Qed.

Lemma nodes_eq n : nodes n = n :: (children n ≫= nodes).
Proof. by destruct n. Qed.

Lemma wf_node_nodes n :
  wf_node n -> forall m, m ∈ nodes n -> sorted (children m).
Proof.
  induction n as [ni d rm cs IH] using node_ind'. intros Hwf m Hm.
  apply wf_node_unfold in Hwf as (_ & Hs & Hall). simpl in Hs, Hall.
  rewrite nodes_eq in Hm. apply elem_of_cons in Hm as [->|Hm]; [done|].
  cbn [children] in Hm. apply list_elem_of_bind in Hm as (c & Hm & Hc).
  rewrite Forall_forall in IH, Hall. apply (IH c Hc); [|done].
  by destruct (Hall c Hc).
Qed.

Lemma sorted_distinct_ascending cs :
  sorted cs ->
  NoDup (remainder <$> cs) /\ Sorted Z.le (remainder <$> cs).
Proof.
  intros Hs. split.
  - induction Hs as [|c cs Hs IH Hall]; [constructor|].
    rewrite fmap_cons. apply NoDup_cons. split; [|done].
    intros (x & Hr & Hx)%list_elem_of_fmap.
    rewrite Forall_forall in Hall. specialize (Hall x Hx). lia.
  - apply Sorted.StronglySorted_Sorted.
    eapply StronglySorted_fmap; [|exact Hs]. simpl. intros x y Hlt. lia.
Qed.

Lemma wf_sibling_inv t : wf t -> sibling_inv t.
Proof.
  intros (_ & Hnode & _) n Hn.
  apply sorted_distinct_ascending. by eapply wf_node_nodes.
Qed.

(** ** The iterator *)

Lemma node_slots_eq n : node_slots n = item n :: forest_slots (children n).
Proof. by destruct n. Qed.

Lemma forest_slots_cons c cs :
  forest_slots (c :: cs) = item c :: forest_slots (children c) ++ forest_slots cs.
Proof. unfold forest_slots. by rewrite bind_cons, node_slots_eq. Qed.

Lemma index_snoc {X} (s : list X) x : index (s ++ [x]) (len (s ++ [x]) - 1) = Ok x.
Proof.
  apply index_lookup.
  - unfold len. rewrite length_app. simpl. lia.
  - unfold len. rewrite length_app. simpl.
    replace (Z.to_nat (Z.of_nat (length s + 1) - 1)) with (length s) by lia.
    by rewrite list_lookup_middle.
Qed.

Lemma slice_to_snoc {X} (s : list X) x :
  slice_to (s ++ [x]) (len (s ++ [x]) - 1) = Ok s.
Proof.
  unfold slice_to, len. rewrite length_app. simpl.
  rewrite decide_True by lia. f_equal.
  replace (Z.to_nat (Z.of_nat (length s + 1) - 1)) with (length s) by lia.
  apply take_app_length.
Qed.

Lemma slice_to_snoc' {X Y} (s : list X) (s' : list Y) x y :
  length s = length s' ->
  slice_to (s ++ [x]) (len (s' ++ [y]) - 1) = Ok s.
Proof.
  intros Hl. rewrite <- (slice_to_snoc s x). f_equal. unfold len.
  rewrite !length_app. simpl. lia.
Qed.

Lemma index_snoc' {X Y} (s : list X) (s' : list Y) x y :
  length s = length s' ->
  index (s ++ [x]) (len (s' ++ [y]) - 1) = Ok x.
Proof.
  intros Hl. rewrite <- (index_snoc s x). f_equal. unfold len.
  rewrite !length_app. simpl. lia.
Qed.

(** The loop of [Next], started at a leaf: it stops at the next sibling
    to visit, or reports the end when nothing is pending. *)
Lemma Next_loop_spec fuel (iter : Iterator A) :
  positioned iter -> (length (iter_fathers iter) <= fuel)%nat ->
  (pending_stack (reverse (iter_fathers iter)) (reverse (iter_indexes iter))
                 (iter_i iter) = [] /\
   exists iter', Next_loop fuel iter = Ok (iter', false)) \/
  (exists iter', Next_loop fuel iter = Ok (iter', true) /\ positioned iter' /\
     pending_stack (reverse (iter_fathers iter)) (reverse (iter_indexes iter))
                   (iter_i iter) = Iterator_Item iter' :: remaining iter').
Proof.
  revert iter. induction fuel as [|fuel IH]; intros [t fs ixs n i];
    unfold positioned; simpl; intros (Hlen & Hi & Hixs) Hfuel.
  - destruct fs; [|simpl in Hfuel; lia]. destruct ixs; [|done].
    left. split; [done|]. by eexists.
  - destruct fs as [|f0 fs0] using rev_ind.
    { destruct ixs; [|done]. left. split; [done|]. by eexists. }
    clear IHfs0.
    destruct ixs as [|ix0 ixs0] using rev_ind.
    { rewrite length_app in Hlen. simpl in Hlen. lia. }
    clear IHixs0.
    rewrite !length_app in Hlen. simpl in Hlen.
    assert (length fs0 = length ixs0) as Hlen0 by lia.
    apply Forall_app in Hixs as [Hixs0 Hix0].
    apply Forall_cons in Hix0 as [Hix0 _].
    assert ((0 <? len (fs0 ++ [f0])) = true) as ->.
    { apply Z.ltb_lt. unfold len. rewrite length_app. simpl. lia. }
    rewrite index_snoc. cbn [mbind res_bind].
    rewrite !reverse_snoc. cbn [pending_stack].
    destruct (Z.ltb_spec i (len (children f0) - 1)) as [Hlt|Hge].
    + right.
      destruct (index_in_range (children f0) (i + 1)) as (n' & Hidx & Hn');
        [lia|].
      rewrite Hidx. cbn [mbind res_bind]. eexists. split; [reflexivity|].
      split.
      * unfold positioned. simpl. rewrite !length_app. simpl.
        split; [lia|]. split; [lia|]. apply Forall_app. split; [done|].
        by constructor.
      * unfold remaining, Iterator_Item. simpl.
        rewrite !reverse_snoc. cbn [pending_stack].
        rewrite (drop_S _ _ _ Hn'), forest_slots_cons.
        replace (Z.to_nat (i + 1 + 1)) with (S (Z.to_nat (i + 1))) by lia.
        cbn [app]. by rewrite <- ?app_assoc.
    + rewrite slice_to_snoc.
      rewrite (slice_to_snoc' ixs0 fs0 ix0 f0) by done.
      rewrite (index_snoc' ixs0 fs0 ix0 f0) by done.
      cbn [mbind res_bind].
      assert (drop (Z.to_nat (i + 1)) (children f0) = []) as ->.
      { apply drop_ge. unfold len in Hge. lia. }
      simpl.
      rewrite length_app in Hfuel. simpl in Hfuel.
      destruct (IH (mkIterator t fs0 ixs0 n ix0)) as [Hend|Hmore].
      * unfold positioned. simpl. done.
      * simpl. lia.
      * left. exact Hend.
      * right. exact Hmore.
Qed.

(** One call of [Next] yields the first of the remaining slots, or ends
    the iteration when none remains. *)
Lemma Next_spec (iter : Iterator A) :
  positioned iter ->
  (remaining iter = [] /\ exists iter', Next iter = Ok (iter', false)) \/
  (exists iter', Next iter = Ok (iter', true) /\ positioned iter' /\
     remaining iter = Iterator_Item iter' :: remaining iter').
Proof.
  intros Hpos. unfold Next.
  destruct (Z.ltb_spec 0 (len (children (iter_n iter)))) as [Hchildren|Hleaf].
  - right. destruct (children (iter_n iter)) as [|c rest] eqn:Ecs.
    { unfold len in Hchildren. simpl in Hchildren. lia. }
    rewrite (index_lookup (c :: rest) 0 c) by done.
    cbn [mbind res_bind]. eexists. split; [reflexivity|].
    destruct Hpos as (Hlen & Hi & Hixs). split.
    + unfold positioned. simpl. rewrite !length_app. simpl.
      split; [lia|]. split; [lia|]. apply Forall_app. split; [done|].
      by constructor.
    + unfold remaining, Iterator_Item. simpl.
      rewrite Ecs, !reverse_snoc. cbn [pending_stack].
      rewrite Ecs. rewrite forest_slots_cons. cbn [app drop Z.to_nat].
      by rewrite <- ?app_assoc.
  - assert (children (iter_n iter) = []) as Ecs.
    { apply len_0_iff. unfold len in *. lia. }
    unfold remaining. rewrite Ecs. simpl.
    by apply Next_loop_spec.
Qed.

(** Draining an iterator with enough fuel yields all remaining slots and
    sees the end of the iteration. *)
Lemma drain_spec fuel (iter : Iterator A) :
  positioned iter -> (length (remaining iter) < fuel)%nat ->
  drain fuel iter = Ok (remaining iter, true).
Proof.
  revert iter. induction fuel as [|fuel IH]; intros iter Hpos Hfuel; [lia|].
  cbn [drain].
  destruct (Next_spec iter Hpos)
    as [(Hnil & iter' & ->)|(iter' & -> & Hpos' & Heq)];
    cbn [mbind res_bind].
  - by rewrite Hnil.
  - rewrite Heq in Hfuel. simpl in Hfuel.
    rewrite (IH iter' Hpos') by lia. cbn [mbind res_bind]. by rewrite Heq.
Qed.

Lemma positioned_NewIterator t : positioned (NewIterator t).
Proof. unfold positioned, NewIterator. simpl. repeat split; [lia|done]. Qed.

Lemma remaining_NewIterator t :
  remaining (NewIterator t) = forest_slots (children (root t)).
Proof. unfold remaining, NewIterator. simpl. by rewrite app_nil_r. Qed.

(** In a well-formed subtree every slot holds an item. *)
Lemma wf_node_slots n :
  wf_node n -> forest_slots (children n) = Some <$> forest_items (children n).
Proof.
  induction n as [ni d rm cs IH] using node_ind'. intros Hwf.
  apply wf_node_unfold in Hwf as (_ & _ & Hall). simpl in Hall.
  cbn [children]. induction cs as [|c cs IHcs]; [done|].
  apply Forall_cons in IH as [IHc IH].
  apply Forall_cons in Hall as [[(_ & [a Ha] & _) Hcwf] Hall].
  rewrite forest_slots_cons, forest_items_cons, node_items_eq, Ha.
  rewrite (IHc Hcwf), (IHcs IH Hall). simpl.
  by rewrite !fmap_app.
Qed.

(** ** Consequences used by the claims *)

Lemma search_true_inv cs r lft rgt :
  search cs r = Ok (true, lft, rgt) ->
  exists child, index cs lft = Ok child /\ remainder child = r.
Proof.
  unfold search.
  destruct (search_loop (length cs) cs r 0 (len cs - 1)) as [[lo hi]|];
    [|done].
  cbn [mbind res_bind]. destruct (lo =? hi); [|done].
  destruct (index cs lo) as [child|] eqn:Hidx; [|done].
  cbn [mbind res_bind].
  destruct (Z.eqb_spec r (remainder child)) as [->|]; [|done].
  intros [= <- <-]. by exists child.
Qed.

(** A [put] that returns an item makes that item the one [get] finds. *)
Lemma Put_then_Get t it t' b :
  wf t -> Put t it = Ok (t', Some b) -> Get t' it = Ok (t', Some b).
Proof.
  intros Hwf Hput.
  destruct (Put_spec t it Hwf) as (t1 & out & Hput' & Hwf' & Hcases).
  rewrite Hput in Hput'. injection Hput' as <- <-.
  assert (exists b', b' ∈ Items t' /\ Key b' = Key it /\ b = b')
    as (b' & Hb & Hkb & ->).
  { destruct Hcases as [(a' & Ha' & Hk' & Hout & ->)
                       |[(_ & Hout & Hperm & _)|(_ & Hout & _)]];
      [| |done]; injection Hout as ->.
    - by exists a'.
    - exists it. split; [|done]. rewrite Hperm. apply elem_of_cons. by left. }
  destruct (Get_spec t' it Hwf') as [(a & Ha & Hk & ->)|[Habs _]].
  - pose proof Hwf' as (_ & _ & Hnd & _).
    by rewrite (NoDup_keys_inj _ a b' Hnd Ha Hb) by congruence.
  - by destruct (Habs b' Hb).
Qed.

End properties.

(** Every tree a program can build is well formed. *)
Lemma reachable_wf {A} `{Item A} (t : HTree A) : reachable t -> wf t.
Proof.
  induction 1 as [|t it t' out _ IH Hput|t it t' out _ IH Hdel].
  - apply wf_New.
  - destruct (Put_spec t it IH) as (t1 & out1 & Hput1 & Hwf & _).
    rewrite Hput in Hput1. by injection Hput1 as -> _.
  - destruct (Delete_spec t it IH) as (t1 & out1 & Hdel1 & Hwf & _).
    rewrite Hdel in Hdel1. by injection Hdel1 as -> _.
Qed.

(** Distinct keys put into a tree that holds none of them: as long as
    no [Put] returns nil, all of them are stored, [Len] grows by their
    number and [Get] finds each. *)
Lemma PutEach_distinct {A} `{Item A} (its : list A) (t : HTree A) :
  wf t ->
  exists t' outs, PutEach t its = Ok (t', outs) /\ wf t' /\
    (Forall is_Some outs -> NoDup (Key <$> its) ->
     (forall a b, a ∈ its -> b ∈ Items t -> Key b <> Key a) ->
     Items t' ≡ₚ (its ++ Items t) /\ Len t' = Len t + len its /\
     forall a, a ∈ its -> Get t' a = Ok (t', Some a)).
Proof.
  revert t. induction its as [|it rest IH]; intros t Hwf.
  - exists t, []. split; [done|]. split; [done|]. intros _ _ _.
    split; [done|]. split; [unfold len; simpl; lia|].
    intros a Ha. by apply elem_of_nil in Ha.
  - destruct (Put_spec t it Hwf) as (t1 & out & Hput & Hwf1 & Hcases).
    destruct (IH t1 Hwf1) as (t' & outs & Heach & Hwf' & Hrest).
    exists t', (out :: outs). cbn [PutEach]. rewrite Hput. cbn [mbind res_bind].
    rewrite Heach. cbn [mbind res_bind]. split; [done|]. split; [done|].
    intros Hsome Hnd Hfresh.
    apply Forall_cons in Hsome as [Hout Hsome].
    rewrite fmap_cons in Hnd. apply NoDup_cons in Hnd as [Hit Hnd].
    destruct Hcases as [(b & Hb & Hkb & _)|[(_ & _ & Hperm & Hlen & _)
                                           |(_ & -> & _)]].
    + destruct (Hfresh it b); [apply elem_of_cons; by left|done|done].
    + destruct Hrest as (Hperm' & Hlen' & _); [done|done| |].
      { intros a b Ha Hb. rewrite Hperm in Hb.
        apply elem_of_cons in Hb as [->|Hb].
        - intros Heq. apply Hit. apply list_elem_of_fmap. by exists a.
        - apply Hfresh; [apply elem_of_cons; by right|done]. }
      assert (Items t' ≡ₚ ((it :: rest) ++ Items t)) as Hall.
      { rewrite Hperm', Hperm. solve_Permutation. }
      split; [done|]. split.
      * rewrite Hlen', Hlen. unfold len. simpl. lia.
      * intros a Ha. apply (wf_findable t' Hwf'). rewrite Hall.
        apply elem_of_app. by left.
    + by destruct Hout.
Qed.

(** ** The tests of the repository, run on the embedding *)

Example TestTreeInside :
  PutAll New (U <$> [0; 1; 2; 3; 4; 5; 6; 7; 8; 9]) = Ok tree_0_9 /\
  summary <$> children (root tree_0_9) =
    [(Some (U 0), 0, 1, [Some (U 6); Some (U 4); Some (U 2)]);
     (Some (U 1), 1, 1, [Some (U 3); Some (U 7); Some (U 5)])] /\
  (children (root tree_0_9) ≫= fun c => summary <$> children c) =
    [(Some (U 6), 0, 2, []); (Some (U 4), 1, 2, []);
     (Some (U 2), 2, 2, [Some (U 8)]);
     (Some (U 3), 0, 2, [Some (U 9)]); (Some (U 7), 1, 2, []);
     (Some (U 5), 2, 2, [])].
Proof. repeat split; vm_compute; reflexivity. Qed.

Example TestPutReuse :
  exists t, Put tree_0_9 (U 9) = Ok (t, Some (U 9)) /\
            Conflicts t = 1 /\ Len t = 10.
Proof. eexists. repeat split; vm_compute; reflexivity. Qed.

Example TestPutNewNode :
  exists t, Put tree_0_9 (U 10) = Ok (t, Some (U 10)) /\
            Conflicts t = 0 /\ Len t = 11.
Proof. eexists. repeat split; vm_compute; reflexivity. Qed.

Example TestDeleteReplace :
  exists t c leaf,
    Delete tree_delete_replace (U 0) = Ok (t, Some (U 0)) /\
    children (root t) !! 0%nat = Some c /\
    summary c = (Some (U 42), 0, 1, [Some (U 6); Some (U 4); Some (U 2)]) /\
    children c !! 0%nat = Some leaf /\ children leaf = [] /\
    Len t = 9.
Proof. eexists _, _, _. repeat split; vm_compute; reflexivity. Qed.

Example TestDeleteLeaf :
  exists t c,
    Delete tree_0_7 (U 7) = Ok (t, Some (U 7)) /\
    children (root t) !! 1%nat = Some c /\ len (children c) = 2 /\
    Len t = 7.
Proof. eexists _, _. repeat split; vm_compute; reflexivity. Qed.

(** * The properties claimed by the specification *)

(** Well-formedness of a concrete tree, by evaluation. *)
Ltac solve_child_ok :=
  split; [reflexivity|]; split; [by eexists|];
  let a := fresh "a" in
  let Ha := fresh "Ha" in
  intros a Ha; cbn in Ha;
  repeat (apply elem_of_cons in Ha as [->|Ha]; [vm_compute; reflexivity|]);
  by apply elem_of_nil in Ha.

Ltac solve_wf_node :=
  apply wf_node_unfold; cbn [depth children];
  split; [rewrite len_primes; lia|];
  split; [unfold sorted; repeat (constructor; cbn [remainder]); lia|];
  solve_wf_children
with solve_wf_children :=
  first [ by apply Forall_nil
        | apply Forall_cons; split;
          [split; [solve_child_ok|solve_wf_node]|solve_wf_children] ].

Ltac solve_wf :=
  unfold wf; cbv delta [tree_0_9 tree_delete_replace example_tree];
  cbn [root];
  split; [reflexivity|]; split; [solve_wf_node|];
  split; [vm_compute; refine (bool_decide_unpack _ _); vm_compute; exact I|];
  split; [reflexivity|cbn [conflicts_]; lia].

(** C1: for pairwise-distinct keys put into a fresh tree, [Len] is the
    number of keys and [Get] finds each of them.  The code breaks this on
    the ten keys [colliding_keys]: they are pairwise distinct, yet after
    putting them [Len] is 9 and [Get] of the tenth key returns nil. *)
Theorem colliding_keys_lose_an_item :
  NoDup (Key <$> colliding_keys) /\ length colliding_keys = 10%nat /\
  exists t, PutAll New colliding_keys = Ok t /\ Len t = 9 /\
            Get t (U (9 * nine_primes)) = Ok (t, None).
Proof.
  split; [vm_compute; refine (bool_decide_unpack _ _); vm_compute; exact I|].
  split; [reflexivity|].
  eexists. split; [vm_compute; reflexivity|].
  split; vm_compute; reflexivity.
Qed.

(** C2: [Put] never returns nil for pairwise-distinct keys.  The code
    breaks this: after nine of the keys [colliding_keys] are put, the
    tenth, which is not in the tree, is answered with nil and the tree
    is left as it was. *)
Theorem colliding_key_put_returns_nil :
  exists t, PutAll New (take 9 colliding_keys) = Ok t /\
    (forall a, a ∈ Items t -> Key a <> Key (U (9 * nine_primes))) /\
    Put t (U (9 * nine_primes)) = Ok (t, None).
Proof.
  eexists. split; [vm_compute; reflexivity|]. split.
  - intros a Ha Hk. cbn in Ha.
    repeat (apply elem_of_cons in Ha as [->|Ha]; [vm_compute in Hk; discriminate|]).
    by apply elem_of_nil in Ha.
  - vm_compute. reflexivity.
Qed.

(** C3: when [delete] matches a child that has children, the slot of the
    child receives a node with the item of the leaf found by following
    first children from the child, the child's depth and remainder, and
    the child's children with that leaf detached from its father; the
    item returned is the matched child's. *)
Theorem delete_promotes_first_leaf {A} `{Item A}
    (n : node A) (it : A) (st : counters) r lft rgt (child : node A) ci :
  modulo (Key it) (depth n) = Ok r ->
  search (children n) r = Ok (true, lft, rgt) ->
  index (children n) lft = Ok child ->
  item child = Some ci -> Key ci = Key it ->
  children child <> [] ->
  delete n it st =
    Ok (set_children n
          (<[Z.to_nat lft :=
               Node (item (first_leaf child)) (depth child) (remainder child)
                    (children (without_first_leaf child))]> (children n)),
        decr_length st, Some ci) /\
  children (first_leaf child) = [].
Proof.
  intros Hm Hs Hidx Hitem Hkey Hne. split; [|apply first_leaf_no_children].
  destruct n as [ni d rm cs]. cbn [depth children] in *.
  apply index_Ok_inv in Hidx as [Hrange Hlookup].
  cbn [delete]. rewrite Hm. cbn [mbind res_bind]. rewrite Hs.
  cbn [mbind res_bind].
  rewrite (with_index_lookup cs lft child) by (lia || done).
  unfold item_key. rewrite Hitem. cbn [mbind res_bind].
  rewrite Hkey, Z.eqb_refl.
  assert ((len (children child) =? 0) = false) as ->.
  { apply Z.eqb_neq. by rewrite len_0_iff. }
  rewrite (detach_leaf_eq child Hne). cbn [mbind res_bind]. done.
Qed.

Lemma delete_promotes_first_leaf_witness :
  delete (root tree_delete_replace) (U 0) (Counters 10 0) =
    Ok (set_children (root tree_delete_replace)
          (<[Z.to_nat 0 :=
               Node (item (first_leaf node_of_key_0)) (depth node_of_key_0)
                    (remainder node_of_key_0)
                    (children (without_first_leaf node_of_key_0))]>
             (children (root tree_delete_replace))),
        decr_length (Counters 10 0), Some (U 0)) /\
  children (first_leaf node_of_key_0) = [].
Proof.
  apply (delete_promotes_first_leaf (root tree_delete_replace) (U 0)
           (Counters 10 0) 0 0 0 node_of_key_0 (U 0));
    vm_compute; (reflexivity || discriminate).
Defined.

(** C4: path consistency is kept by every [Put] and [Delete], leaf
    promotion included: in the tree after the call the key of every
    reachable node leaves, at the prime of each ancestor's depth, the
    remainders on the path to the node, and every stored item is found
    by [Get]. *)
Theorem path_consistency_preserved {A} `{Item A} (t : HTree A) (it : A) :
  wf t ->
  (exists t' out, Put t it = Ok (t', out) /\
     wf t' /\ path_consistent t' /\ findable t') /\
  (exists t' out, Delete t it = Ok (t', out) /\
     wf t' /\ path_consistent t' /\ findable t').
Proof.
  intros Hwf. split.
  - destruct (Put_spec t it Hwf) as (t' & out & Hput & Hwf' & _).
    exists t', out. split; [done|]. split; [done|].
    split; [by apply wf_path_consistent|by apply wf_findable].
  - destruct (Delete_spec t it Hwf) as (t' & out & Hdel & Hwf' & _).
    exists t', out. split; [done|]. split; [done|].
    split; [by apply wf_path_consistent|by apply wf_findable].
Qed.

Lemma path_consistency_preserved_witness :
  (exists t' out, Put tree_delete_replace (U 10) = Ok (t', out) /\
     wf t' /\ path_consistent t' /\ findable t') /\
  (exists t' out, Delete tree_delete_replace (U 0) = Ok (t', out) /\
     wf t' /\ path_consistent t' /\ findable t').
Proof.
  split.
  - apply (path_consistency_preserved tree_delete_replace (U 10)). solve_wf.
  - apply (path_consistency_preserved tree_delete_replace (U 0)). solve_wf.
Defined.

(** C5: putting an item whose key is present adds one to [Conflicts],
    leaves [Len] and the nodes as they are, and returns the item stored
    before, not the argument. *)
Theorem put_existing_key {A} `{Item A} (t : HTree A) (it a : A) :
  wf t -> a ∈ Items t -> Key a = Key it ->
  exists t', Put t it = Ok (t', Some a) /\
    root t' = root t /\ Len t' = Len t /\
    Conflicts t' = int_wrap (Conflicts t + 1) /\
    (Conflicts t < 2 ^ 63 - 1 -> Conflicts t' = Conflicts t + 1).
Proof.
  intros Hwf Ha Hk.
  destruct (Put_spec t it Hwf) as (t' & out & Hput & _ & Hcases).
  destruct Hcases as [(b & Hb & Hkb & -> & ->)|[(Habs & _)|(Habs & _)]].
  - pose proof Hwf as (_ & _ & Hnd & _ & Hconf).
    assert (b = a) as -> by (apply (NoDup_keys_inj (Items t)); congruence).
    eexists. split; [exact Hput|]. unfold Len, Conflicts. simpl.
    repeat split; try done. intros Hmax. apply int_wrap_small. lia.
  - by destruct (Habs a Ha).
  - by destruct (Habs a Ha).
Qed.

Lemma put_existing_key_witness :
  exists t', Put example_tree (mkKeyValue 123 "data2") =
             Ok (t', Some (mkKeyValue 123 "data1")) /\
    root t' = root example_tree /\ Len t' = Len example_tree /\
    Conflicts t' = int_wrap (Conflicts example_tree + 1) /\
    (Conflicts example_tree < 2 ^ 63 - 1 ->
     Conflicts t' = Conflicts example_tree + 1).
Proof.
  apply (put_existing_key example_tree (mkKeyValue 123 "data2")
           (mkKeyValue 123 "data1")).
  - solve_wf.
  - cbn. apply elem_of_cons. by left.
  - reflexivity.
Defined.

(** C6: deleting an item whose key is present returns the stored item,
    takes one off [Len], and a [Get] of the key afterwards returns nil. *)
Theorem delete_present_key {A} `{Item A} (t : HTree A) (it a : A) :
  wf t -> a ∈ Items t -> Key a = Key it ->
  exists t', Delete t it = Ok (t', Some a) /\
    Len t' = Len t - 1 /\ Get t' it = Ok (t', None).
Proof.
  intros Hwf Ha Hk.
  destruct (Delete_spec t it Hwf) as (t' & out & Hdel & Hwf' & Hcases).
  destruct Hcases as [(b & Hb & Hkb & -> & Hperm & Hlen & _)|(Habs & _)].
  - pose proof Hwf as (_ & _ & Hnd & _).
    assert (b = a) as -> by (apply (NoDup_keys_inj (Items t)); congruence).
    exists t'. split; [done|]. split; [done|].
    destruct (Get_spec t' it Hwf') as [(c & Hc & Hkc & _)|[_ Hget]]; [|done].
    exfalso. rewrite Hperm, fmap_cons in Hnd.
    apply NoDup_cons in Hnd as [Hnotin _]. apply Hnotin.
    apply list_elem_of_fmap. exists c. split; [congruence|done].
  - by destruct (Habs a Ha).
Qed.

Lemma delete_present_key_witness :
  exists t', Delete tree_0_9 (U 7) = Ok (t', Some (U 7)) /\
    Len t' = Len tree_0_9 - 1 /\ Get t' (U 7) = Ok (t', None).
Proof.
  apply (delete_present_key tree_0_9 (U 7) (U 7)).
  - solve_wf.
  - cbn. repeat (first [by apply list_elem_of_here|apply list_elem_of_further]).
  - reflexivity.
Defined.

(** C7: when no node on the residue path of the key holds the key,
    [Delete] returns nil and leaves [Len], and the whole tree, as it
    was. *)
Theorem delete_absent_key {A} `{Item A} (t : HTree A) (it : A) :
  wf t -> ~ path_match (Key it) (root t) ->
  exists t', Delete t it = Ok (t', None) /\ Len t' = Len t /\ t' = t.
Proof.
  intros Hwf Hno.
  destruct (Delete_spec t it Hwf) as (t' & out & Hdel & _ & Hcases).
  destruct Hcases as [(b & Hb & Hkb & _)|(_ & -> & ->)].
  - destruct Hno. rewrite <- Hkb. apply present_path_match; [|done].
    by destruct Hwf as (_ & ? & _).
  - by exists t.
Qed.

Lemma delete_absent_key_witness :
  exists t', Delete tree_0_9 (U 10) = Ok (t', None) /\
    Len t' = Len tree_0_9 /\ t' = tree_0_9.
Proof.
  apply (delete_absent_key tree_0_9 (U 10)).
  - solve_wf.
  - intros (a & Ha & Hk)%path_match_present. cbn in Ha.
    repeat (apply elem_of_cons in Ha as [->|Ha];
            [vm_compute in Hk; discriminate|]).
    by apply elem_of_nil in Ha.
Defined.

(** C8: the sibling-array invariant is kept by every [Put] and
    [Delete]: in the tree after the call the remainders in every node's
    children array are pairwise distinct and ascending. *)
Theorem sibling_arrays_stay_sorted {A} `{Item A} (t : HTree A) (it : A) :
  wf t ->
  (exists t' out, Put t it = Ok (t', out) /\ wf t' /\ sibling_inv t') /\
  (exists t' out, Delete t it = Ok (t', out) /\ wf t' /\ sibling_inv t').
Proof.
  intros Hwf. split.
  - destruct (Put_spec t it Hwf) as (t' & out & Hput & Hwf' & _).
    exists t', out. split; [done|]. split; [done|by apply wf_sibling_inv].
  - destruct (Delete_spec t it Hwf) as (t' & out & Hdel & Hwf' & _).
    exists t', out. split; [done|]. split; [done|by apply wf_sibling_inv].
Qed.

Lemma sibling_arrays_stay_sorted_witness :
  (exists t' out, Put tree_0_9 (U 10) = Ok (t', out) /\
     wf t' /\ sibling_inv t') /\
  (exists t' out, Delete tree_0_9 (U 10) = Ok (t', out) /\
     wf t' /\ sibling_inv t').
Proof. apply (sibling_arrays_stay_sorted tree_0_9 (U 10)). solve_wf. Defined.

(** C9: a fresh iterator yields, by successive successful calls of
    [Next], every stored item exactly once, in the pre-order given by
    the children arrays, and then reports the end: as many elements as
    [Len], none for an empty tree; after keys 0, 1, 2, 3, 4, 5 are put
    into a fresh tree the sequence is 0, 4, 2, 1, 3, 5. *)
Theorem iterator_yields_every_item {A} `{Item A} (t : HTree A) (fuel : nat) :
  wf t -> (length (Items t) < fuel)%nat ->
  drain fuel (NewIterator t) = Ok (Some <$> Items t, true) /\
  len (Items t) = Len t /\
  drain 1 (NewIterator (@New A)) = Ok ([], true) /\
  exists t6, PutAll New (U <$> [0; 1; 2; 3; 4; 5]) = Ok t6 /\
    drain 7 (NewIterator t6) = Ok (Some <$> (U <$> [0; 4; 2; 1; 3; 5]), true).
Proof.
  intros Hwf Hfuel. split; [|split; [|split]].
  - rewrite drain_spec.
    + rewrite remaining_NewIterator, wf_node_slots; [done|].
      by destruct Hwf as (_ & ? & _).
    + apply positioned_NewIterator.
    + rewrite remaining_NewIterator, wf_node_slots, length_fmap; [done|].
      by destruct Hwf as (_ & ? & _).
  - destruct Hwf as (_ & _ & _ & Hlen & _). unfold Len. by rewrite Hlen.
  - reflexivity.
  - eexists. split; vm_compute; reflexivity.
Qed.

Lemma iterator_yields_every_item_witness :
  drain 11 (NewIterator tree_0_9) = Ok (Some <$> Items tree_0_9, true) /\
  len (Items tree_0_9) = Len tree_0_9 /\
  drain 1 (NewIterator (@New Uint32)) = Ok ([], true) /\
  exists t6, PutAll New (U <$> [0; 1; 2; 3; 4; 5]) = Ok t6 /\
    drain 7 (NewIterator t6) = Ok (Some <$> (U <$> [0; 4; 2; 1; 3; 5]), true).
Proof.
  apply (iterator_yields_every_item tree_0_9 11).
  - solve_wf.
  - vm_compute. lia.
Defined.

(** * Further properties of the code *)

(** ** [modulo] and the sibling array *)

(** X1: [modulo] returns the remainder of the key at the prime of the
    depth, a value below the prime that the conversion to [int8] leaves
    as it is, for the depths 0 to 9; for any other depth it panics. *)
Theorem modulo_exact_or_panic (key d : Z) :
  (0 <= d < 10 ->
   exists p, primes !! Z.to_nat d = Some p /\ 2 <= p <= 29 /\
             modulo key d = Ok (key mod p) /\ 0 <= key mod p < p) /\
  (~ 0 <= d < 10 -> modulo key d = Err IndexOutOfRange).
Proof.
  split.
  - intros Hd. destruct (modulo_eq key d) as (p & Hp & Hr & Hm).
    { by rewrite len_primes. }
    exists p. apply index_Ok_inv in Hp as [_ Hp].
    repeat split; try done; try lia; apply Z.mod_pos_bound; lia.
  - intros Hd. unfold modulo, index. case_decide; [|done].
    destruct (primes !! Z.to_nat d) as [p|] eqn:Hp; [|done].
    apply lookup_lt_Some in Hp. simpl in Hp. lia.
Qed.

Lemma search_loop_bounds {A} (fuel : nat) (cs : list (node A)) r lo hi :
  0 <= lo <= hi -> hi < len cs -> hi - lo <= Z.of_nat fuel ->
  exists k, search_loop fuel cs r lo hi = Ok (k, k) /\ lo <= k <= hi.
Proof.
  revert lo hi. induction fuel as [|fuel IH]; intros lo hi Hlo Hhi Hfuel.
  - assert (lo = hi) as -> by lia. exists hi. simpl.
    rewrite Z.ltb_irrefl. split; [done|lia].
  - simpl. destruct (Z.ltb_spec lo hi) as [Hlt|Hge].
    + pose proof (shiftr1_bounds lo hi Hlt) as Hmid.
      set (mid := Z.shiftr (lo + hi) 1) in *.
      destruct (index_in_range cs mid) as (child & Hidx & _); [lia|].
      rewrite Hidx. simpl. destruct (remainder child <? r).
      * destruct (IH (mid + 1) hi) as (k & Hk & Hkr); [lia|lia|lia|].
        exists k. split; [done|lia].
      * destruct (IH lo mid) as (k & Hk & Hkr); [lia|lia|lia|].
        exists k. split; [done|lia].
    + assert (lo = hi) as -> by lia. exists hi. split; [done|lia].
Qed.

(** X2: on every array, sorted or not, [search] returns without an
    index out of range: [(false, 0, -1)] on the empty array, else
    [left = right] is a position of the array, and [ok] tells whether
    the child at that position has the remainder [r]. *)
Theorem search_stays_in_bounds {A} (cs : list (node A)) (r : Z) :
  exists ok lft rgt, search cs r = Ok (ok, lft, rgt) /\
    (cs = [] -> ok = false /\ lft = 0 /\ rgt = -1) /\
    (cs <> [] ->
     lft = rgt /\ exists c, cs !! Z.to_nat lft = Some c /\ 0 <= lft < len cs /\
                            (ok = true <-> remainder c = r)).
Proof.
  destruct cs as [|c0 cs0] eqn:Ecs.
  - exists false, 0, (-1). split; [reflexivity|]. split; [done|done].
  - rewrite <- Ecs.
    assert (0 < len cs) as Hlen by (rewrite Ecs; unfold len; simpl; lia).
    destruct (search_loop_bounds (length cs) cs r 0 (len cs - 1))
      as (k & Hk & Hkr); [lia|lia|unfold len; lia|].
    destruct (index_in_range cs k) as (c & Hidx & Hc); [lia|].
    exists (r =? remainder c), k, k. split.
    + unfold search. rewrite Hk. simpl. rewrite Z.eqb_refl, Hidx. simpl.
      by destruct (r =? remainder c).
    + split; [by rewrite Ecs|]. intros _. split; [done|].
      exists c. split; [done|]. split; [lia|].
      rewrite Z.eqb_eq. split; congruence.
Qed.

(** X3: on an array sorted by remainder, [search] answers [ok] exactly
    when some child has the remainder [r], and then [left] is the
    position of that child; when it answers no on a non-empty array,
    the children before [right] have smaller remainders and those after
    [right] greater ones. *)
Theorem search_finds_remainder {A} (cs : list (node A)) (r : Z) :
  sorted cs ->
  exists ok lft rgt, search cs r = Ok (ok, lft, rgt) /\
    (ok = true <-> exists c, c ∈ cs /\ remainder c = r) /\
    (ok = true ->
     exists c, cs !! Z.to_nat lft = Some c /\ 0 <= lft /\ remainder c = r) /\
    (ok = false ->
     forall (j : nat) x, cs !! j = Some x ->
       (Z.of_nat j < rgt -> remainder x < r) /\
       (rgt < Z.of_nat j -> r < remainder x)).
Proof.
  intros Hs.
  destruct (search_cases cs r Hs)
    as [(i & c & rt & Hf & Hc & Hr)
       |[(lft & k & Hnf & Hnone & Hne & Hbelow & c & Hc & Hpos)|[-> Hnf]]].
  - exists true, (Z.of_nat i), rt. split; [done|]. split; [|split; [|done]].
    + split; [|done]. intros _. exists c. split; [|done].
      by eapply list_elem_of_lookup_2.
    + intros _. exists c. rewrite Nat2Z.id. split; [done|]. split; [lia|done].
  - exists false, lft, (Z.of_nat k). split; [done|]. split; [|split; [done|]].
    + split; [done|]. intros (x & Hx & Hxr). by destruct (Hnone x Hx).
    + intros _ j x Hx. split.
      * intros Hj. apply (Hbelow j x Hx). lia.
      * intros Hj. assert (k < j)%nat as Hkj by lia.
        pose proof (sorted_lookup cs k j c x Hs Hc Hx Hkj) as Hlt.
        destruct Hpos as [[Hlast _]|Hpos]; [|lia].
        apply lookup_lt_Some in Hx. unfold len in Hlast. lia.
  - exists false, 0, (-1). split; [done|]. split; [|split; [done|]].
    + split; [done|]. intros (x & Hx & _). by apply elem_of_nil in Hx.
    + intros _ j x Hx. done.
Qed.

Lemma search_finds_remainder_witness :
  exists ok lft rgt,
    search (children (root tree_0_9)) 1 = Ok (ok, lft, rgt) /\
    (ok = true <->
     exists c, c ∈ children (root tree_0_9) /\ remainder c = 1) /\
    (ok = true ->
     exists c, children (root tree_0_9) !! Z.to_nat lft = Some c /\
               0 <= lft /\ remainder c = 1) /\
    (ok = false ->
     forall (j : nat) x, children (root tree_0_9) !! j = Some x ->
       (Z.of_nat j < rgt -> remainder x < 1) /\
       (rgt < Z.of_nat j -> 1 < remainder x)).
Proof.
  apply (search_finds_remainder (children (root tree_0_9)) 1).
  unfold sorted. cbv delta [tree_0_9]. cbn [root children].
  repeat (constructor; cbn [remainder]); lia.
Defined.

Lemma copy_slices_shift {X} (l1 l2 : list X) (y : X) :
  copy_slices (l1 ++ l2 ++ [y]) (Z.of_nat (length l1) + 1)
              (Z.of_nat (length l1)) =
  Ok (l1 ++ hd y l2 :: l2).
Proof.
  unfold copy_slices, len. rewrite !length_app. simpl.
  rewrite decide_True by lia. f_equal.
  replace (Z.to_nat (Z.of_nat (length l1) + 1)) with (S (length l1)) by lia.
  rewrite Nat2Z.id.
  replace (Z.to_nat (Z.min _ _)) with (length l2) by lia.
  rewrite drop_app_length, take_app_length.
  rewrite (drop_ge (l1 ++ l2 ++ [y])) by (rewrite !length_app; simpl; lia).
  rewrite take_app, take_ge by lia.
  replace (S (length l1) - length l1)%nat with 1%nat by lia.
  rewrite app_nil_r, <- app_assoc. f_equal.
  by destruct l2.
Qed.

(** X4: the three statements of [children.insert] amount to an
    insertion at position [i]: the elements before [i] stay, [n] is at
    [i], the elements from [i] on move one slot to the right; the call
    panics exactly when [i] is negative or beyond the length. *)
Theorem insert_steps_insert_at {A} (s : list (node A)) (i : Z) (n : node A) :
  insert_steps (Some <$> s) i (Some n) =
  match insert_at s i n with
  | Ok s' => Ok (Some <$> s')
  | Err e => Err e
  end /\
  (0 <= i <= len s ->
   insert_at s i n = Ok (take (Z.to_nat i) s ++ n :: drop (Z.to_nat i) s)) /\
  (~ 0 <= i <= len s -> insert_at s i n = Err IndexOutOfRange).
Proof.
  split; [|split; intros Hi; unfold insert_at; by case_decide].
  unfold insert_steps, insert_at.
  assert (len ((Some <$> s) ++ [None]) = len s + 1) as Hlen1.
  { unfold len. rewrite length_app, length_fmap. simpl. lia. }
  rewrite Hlen1. case_decide as Hi.
  - assert ((i <? len s + 1) = true) as -> by (apply Z.ltb_lt; lia).
    rewrite <- (take_drop (Z.to_nat i) s) at 1.
    rewrite fmap_app, <- app_assoc.
    assert (Z.of_nat (length (Some <$> take (Z.to_nat i) s)) = i) as Hl1.
    { rewrite length_fmap, length_take. unfold len in Hi. lia. }
    pose proof (copy_slices_shift (Some <$> take (Z.to_nat i) s)
                  (Some <$> drop (Z.to_nat i) s) None) as Hcopy.
    rewrite Hl1 in Hcopy. rewrite Hcopy. cbn [mbind res_bind].
    rewrite decide_True.
    + f_equal.
      replace (Z.to_nat i) with (length (Some <$> take (Z.to_nat i) s)) at 1
        by lia.
      rewrite insert_middle. by rewrite fmap_app, fmap_cons.
    + unfold len in *. rewrite length_app. simpl.
      rewrite !length_fmap, length_drop, length_take. lia.
  - destruct (Z.ltb_spec i (len s + 1)) as [Hlt|Hge].
    + unfold copy_slices. rewrite Hlen1. rewrite decide_False by lia. done.
    + cbn [mbind res_bind]. rewrite Hlen1. rewrite decide_False by lia. done.
Qed.

(** X5: inserting at a position of the array and deleting at the same
    position gives the array back; in between the array is one longer
    and holds the new node at that position. *)
Theorem insert_then_delete {A} (s : list (node A)) (i : Z) (n : node A) :
  0 <= i <= len s ->
  exists s', insert_at s i n = Ok s' /\ len s' = len s + 1 /\
             index s' i = Ok n /\ delete_at s' i = Ok s.
Proof.
  intros Hi.
  assert (exists l1 l2 : list (node A),
             s = l1 ++ l2 /\ i = Z.of_nat (length l1)) as (l1 & l2 & -> & ->).
  { exists (take (Z.to_nat i) s), (drop (Z.to_nat i) s).
    rewrite take_drop, length_take. unfold len in Hi. split; [done|lia]. }
  rewrite insert_at_middle. eexists. split; [reflexivity|].
  split; [|split].
  - unfold len. rewrite !length_app. simpl. lia.
  - apply index_lookup; [lia|]. rewrite Nat2Z.id. by apply list_lookup_middle.
  - apply delete_at_middle.
Qed.

Lemma insert_then_delete_witness :
  exists s', insert_at (children (root tree_0_9)) 1 node_of_key_0 = Ok s' /\
    len s' = len (children (root tree_0_9)) + 1 /\
    index s' 1 = Ok node_of_key_0 /\
    delete_at s' 1 = Ok (children (root tree_0_9)).
Proof.
  apply (insert_then_delete (children (root tree_0_9)) 1 node_of_key_0).
  vm_compute. split; discriminate.
Defined.

(** ** [Get], [Put] and [Delete] together *)

(** [Get] is decided by the stored items that have the key. *)
Lemma Get_same {A} `{Item A} (t t' : HTree A) (x : A) :
  wf t -> wf t' ->
  (forall a, Key a = Key x -> a ∈ Items t <-> a ∈ Items t') ->
  exists o, Get t x = Ok (t, o) /\ Get t' x = Ok (t', o).
Proof.
  intros Hwf Hwf' Hsame.
  destruct (Get_spec t x Hwf) as [(a & Ha & Hk & ->)|[Habs ->]];
    destruct (Get_spec t' x Hwf') as [(b & Hb & Hkb & ->)|[Habs' ->]].
  - exists (Some a). split; [done|]. do 3 f_equal.
    destruct Hwf' as (_ & _ & Hnd & _).
    apply (NoDup_keys_inj (Items t') b a Hnd); [done| |congruence].
    by apply Hsame.
  - destruct (Habs' a); [by apply Hsame|done].
  - destruct (Habs b); [by apply Hsame|done].
  - by exists None.
Qed.

(** X6: [Get] returns nil exactly when no stored item has the key of
    the argument; otherwise it returns the one stored item with that
    key, whatever else the argument holds. *)
Theorem get_returns_item_of_key {A} `{Item A} (t : HTree A) (it : A) :
  wf t ->
  exists out, Get t it = Ok (t, out) /\
    (forall a, out = Some a <-> a ∈ Items t /\ Key a = Key it) /\
    (out = None <-> forall a, a ∈ Items t -> Key a <> Key it).
Proof.
  intros Hwf. pose proof Hwf as (_ & _ & Hnd & _).
  destruct (Get_spec t it Hwf) as [(a & Ha & Hk & ->)|[Habs ->]].
  - exists (Some a). split; [done|]. split.
    + intros b. split.
      * by intros [= <-].
      * intros [Hb Hkb]. f_equal.
        apply (NoDup_keys_inj (Items t) a b Hnd); [done|done|congruence].
    + split; [done|]. intros Habs. by destruct (Habs a Ha).
  - exists None. split; [done|]. split; [|done].
    intros a. split; [done|]. intros [Ha Hk]. by destruct (Habs a Ha).
Qed.

Lemma get_returns_item_of_key_witness :
  exists out, Get example_tree (mkKeyValue 123 "query") = Ok (example_tree, out) /\
    (forall a, out = Some a <->
               a ∈ Items example_tree /\ Key a = Key (mkKeyValue 123 "query")) /\
    (out = None <->
     forall a, a ∈ Items example_tree -> Key a <> Key (mkKeyValue 123 "query")).
Proof. apply (get_returns_item_of_key example_tree). solve_wf. Defined.

(** X7: what [Put] returns is what a [Get] of the same key returns
    afterwards; a [Put] that returns nil has changed nothing. *)
Theorem put_then_get {A} `{Item A} (t : HTree A) (it : A) :
  wf t ->
  exists t' out, Put t it = Ok (t', out) /\
    (out = None -> t' = t) /\
    (forall b, out = Some b -> Key b = Key it /\ Get t' it = Ok (t', Some b)).
Proof.
  intros Hwf.
  destruct (Put_spec t it Hwf) as (t' & out & Hput & Hwf' & Hcases).
  exists t', out. split; [done|]. split.
  - intros ->.
    by destruct Hcases as [(a & _ & _ & [=] & _)|[(_ & [=] & _)|(_ & _ & ->)]].
  - intros b ->. split; [|by apply (Put_then_Get t it)].
    by destruct Hcases as [(a & _ & Hk & [= ->] & _)
                          |[(_ & [= ->] & _)|(_ & [=] & _)]].
Qed.

Lemma put_then_get_witness :
  exists t' out, Put tree_0_9 (U 10) = Ok (t', out) /\
    (out = None -> t' = tree_0_9) /\
    (forall b, out = Some b ->
       Key b = Key (U 10) /\ Get t' (U 10) = Ok (t', Some b)).
Proof. apply (put_then_get tree_0_9 (U 10)). solve_wf. Defined.

(** X8: [Put] leaves every other key as it was: a [Get] of another key
    returns after the [Put] what it returned before. *)
Theorem put_keeps_other_keys {A} `{Item A} (t : HTree A) (it x : A) :
  wf t -> Key x <> Key it ->
  exists t' out o, Put t it = Ok (t', out) /\
    Get t x = Ok (t, o) /\ Get t' x = Ok (t', o).
Proof.
  intros Hwf Hne.
  destruct (Put_spec t it Hwf) as (t' & out & Hput & Hwf' & Hcases).
  destruct (Get_same t t' x Hwf Hwf') as (o & Hg & Hg').
  { intros a Hk.
    destruct Hcases as [(_ & _ & _ & _ & ->)|[(_ & _ & Hperm & _)|(_ & _ & ->)]];
      [done| |done].
    rewrite Hperm, elem_of_cons. split; [by right|].
    intros [->|?]; [congruence|done]. }
  by exists t', out, o.
Qed.

Lemma put_keeps_other_keys_witness :
  exists t' out o, Put tree_0_9 (U 10) = Ok (t', out) /\
    Get tree_0_9 (U 4) = Ok (tree_0_9, o) /\ Get t' (U 4) = Ok (t', o).
Proof.
  apply (put_keeps_other_keys tree_0_9 (U 10) (U 4)); [solve_wf|].
  vm_compute. discriminate.
Defined.

(** X9: [Delete] leaves every other key as it was, also when a leaf is
    promoted into the slot of the deleted node: a [Get] of another key
    returns after the [Delete] what it returned before. *)
Theorem delete_keeps_other_keys {A} `{Item A} (t : HTree A) (it x : A) :
  wf t -> Key x <> Key it ->
  exists t' out o, Delete t it = Ok (t', out) /\
    Get t x = Ok (t, o) /\ Get t' x = Ok (t', o).
Proof.
  intros Hwf Hne.
  destruct (Delete_spec t it Hwf) as (t' & out & Hdel & Hwf' & Hcases).
  destruct (Get_same t t' x Hwf Hwf') as (o & Hg & Hg').
  { intros a Hk.
    destruct Hcases as [(b & _ & Hkb & _ & Hperm & _)|(_ & _ & ->)]; [|done].
    rewrite Hperm, elem_of_cons. split; [|by right].
    intros [->|?]; [congruence|done]. }
  by exists t', out, o.
Qed.

Lemma delete_keeps_other_keys_witness :
  exists t' out o, Delete tree_delete_replace (U 0) = Ok (t', out) /\
    Get tree_delete_replace (U 42) = Ok (tree_delete_replace, o) /\
    Get t' (U 42) = Ok (t', o).
Proof.
  apply (delete_keeps_other_keys tree_delete_replace (U 0) (U 42)); [solve_wf|].
  vm_compute. discriminate.
Defined.

(** X10: every [Put] that returns an item is counted once, as a new
    entry or as a conflict: [Len + Conflicts] grows by one; a [Put]
    that returns nil is not counted. *)
Theorem put_counts_once {A} `{Item A} (t : HTree A) (it : A) :
  wf t -> Conflicts t < 2 ^ 63 - 1 ->
  exists t' out, Put t it = Ok (t', out) /\
    (out = None -> Len t' + Conflicts t' = Len t + Conflicts t) /\
    (out <> None -> Len t' + Conflicts t' = Len t + Conflicts t + 1).
Proof.
  intros Hwf Hmax. pose proof Hwf as (_ & _ & _ & _ & Hconf).
  destruct (Put_spec t it Hwf) as (t' & out & Hput & _ & Hcases).
  exists t', out. split; [done|].
  destruct Hcases as [(a & _ & _ & -> & ->)
                     |[(_ & -> & _ & Hlen & Hc)|(_ & -> & ->)]].
  - split; [done|]. intros _. unfold Len, Conflicts in *. simpl.
    rewrite int_wrap_small; lia.
  - split; [done|]. intros _. lia.
  - split; [done|]. done.
Qed.

Lemma put_counts_once_witness :
  exists t' out, Put tree_0_9 (U 9) = Ok (t', out) /\
    (out = None ->
     Len t' + Conflicts t' = Len tree_0_9 + Conflicts tree_0_9) /\
    (out <> None ->
     Len t' + Conflicts t' = Len tree_0_9 + Conflicts tree_0_9 + 1).
Proof.
  apply (put_counts_once tree_0_9 (U 9)); [solve_wf|]. vm_compute. reflexivity.
Defined.

(** X11: a second [Delete] of the same key returns nil and changes
    nothing, whether the first one found the key or not. *)
Theorem delete_twice {A} `{Item A} (t : HTree A) (it : A) :
  wf t ->
  exists t' out, Delete t it = Ok (t', out) /\ Delete t' it = Ok (t', None).
Proof.
  intros Hwf. pose proof Hwf as (_ & _ & Hnd & _).
  destruct (Delete_spec t it Hwf) as (t' & out & Hdel & Hwf' & Hcases).
  exists t', out. split; [done|].
  destruct (Delete_spec t' it Hwf') as (t2 & out2 & Hdel2 & _ & Hcases2).
  destruct Hcases2 as [(b & Hb & Hkb & _)|(_ & -> & ->)]; [|done].
  exfalso.
  destruct Hcases as [(a & _ & Hka & _ & Hperm & _)|(Habs & _ & ->)].
  - rewrite Hperm, fmap_cons in Hnd. apply NoDup_cons in Hnd as [Hnotin _].
    apply Hnotin. apply list_elem_of_fmap. exists b. split; [congruence|done].
  - by destruct (Habs b Hb).
Qed.

Lemma delete_twice_witness :
  exists t' out, Delete tree_0_9 (U 3) = Ok (t', out) /\
                 Delete t' (U 3) = Ok (t', None).
Proof. apply (delete_twice tree_0_9 (U 3)). solve_wf. Defined.

(** ** When [Put] returns nil *)

#[local] Arguments modulo : simpl never.
#[local] Arguments search : simpl never.
#[local] Arguments with_index : simpl never.
#[local] Arguments index : simpl never.
#[local] Arguments insert_at : simpl never.
#[local] Arguments delete_at : simpl never.
#[local] Arguments int8 : simpl never.
#[local] Arguments int_wrap : simpl never.
#[local] Arguments len : simpl never.

(** A [put] that returns nil has walked down to a node of depth 9; the
    item of that node has the remainders of the new key at every prime
    used on the way. *)
Lemma put_None_agree {A} `{Item A} (n : node A) :
  wf_node n -> forall (it : A) st n' st',
  put n it st = Ok (n', st', None) ->
  depth n = 9 \/
  exists a, a ∈ forest_items (children n) /\ Key a <> Key it /\
    forall j, depth n <= j < 9 -> modulo (Key a) j = modulo (Key it) j.
Proof.
  induction n as [ni d rm cs IH] using node_ind'. intros Hwf it st n' st' Hput.
  apply wf_node_unfold in Hwf as (Hd & Hs & Hall). simpl in Hd, Hs, Hall.
  rewrite len_primes in Hd.
  destruct (modulo_eq (Key it) d) as (p & Hp & Hpr & Hm).
  { by rewrite len_primes. }
  cbn [put] in Hput. rewrite Hm in Hput. cbn [mbind res_bind] in Hput.
  cbn [depth children].
  destruct (search cs (Key it mod p)) as [[[ok lft] rgt]|] eqn:Hsearch;
    [|done].
  cbn [mbind res_bind] in Hput. destruct ok.
  - apply search_true_inv in Hsearch as (c & Hidx & Hr).
    apply index_Ok_inv in Hidx as [Hrange Hc].
    rewrite (with_index_lookup cs lft c) in Hput by (lia || done).
    assert (c ∈ cs) as Hcin by (by eapply list_elem_of_lookup_2).
    rewrite Forall_forall in Hall, IH.
    destruct (Hall c Hcin) as [(Hcd & [a0 Ha0] & Hck) Hcwf].
    unfold item_key in Hput. rewrite Ha0 in Hput. cbn [mbind res_bind] in Hput.
    destruct (Z.eqb_spec (Key a0) (Key it)) as [Heq|Hneq]; [done|].
    destruct (put c it st) as [[[c' st1] out1]|] eqn:Hputc; [|done].
    cbn [mbind res_bind] in Hput. injection Hput as _ _ ->.
    right.
    destruct (IH c Hcin Hcwf it st c' st1 Hputc)
      as [Hnine|(a & Ha & Hka & Hagree)].
    + exists a0. split; [|split; [done|]].
      * apply elem_of_forest_items. exists c. split; [done|].
        by apply item_in_node_items.
      * intros j Hj. assert (j = d) as -> by lia.
        rewrite Hm, <- Hr. apply Hck. by apply item_in_node_items.
    + exists a. split; [|split; [done|]].
      * apply elem_of_forest_items. exists c. split; [done|].
        rewrite node_items_eq. apply elem_of_app. by right.
      * intros j Hj. destruct (decide (j = d)) as [->|Hjd].
        -- rewrite Hm, <- Hr. apply Hck.
           rewrite node_items_eq. apply elem_of_app. by right.
        -- apply Hagree. lia.
  - change (int8 (len primes - 1)) with 9 in Hput.
    destruct (Z.leb_spec 9 d) as [Hfull|Hroom]; [left; lia|].
    exfalso. revert Hput.
    match goal with
    | |- context [mbind _ ?m] => destruct m; cbn [mbind res_bind]; done
    end.
Qed.

Lemma prime_divides_difference j p x y :
  index primes j = Ok p -> modulo x j = modulo y j -> (p | x - y).
Proof.
  intros Hp Hm.
  assert (0 <= j < len primes) as Hj by (by apply index_Ok_inv in Hp as [? _]).
  destruct (modulo_eq x j Hj) as (q & Hq & Hqr & Hx).
  destruct (modulo_eq y j Hj) as (q' & Hq' & _ & Hy).
  assert (q = p) as -> by congruence. assert (q' = p) as -> by congruence.
  rewrite Hx, Hy in Hm. injection Hm as Hm.
  apply Z.mod_divide; [lia|]. rewrite Zminus_mod, Hm, Z.sub_diag.
  apply Z.mod_0_l. lia.
Qed.

(** Keys with equal remainders at the first nine primes are congruent
    modulo the product of these primes. *)
Lemma nine_primes_congruent x y :
  (forall j, 0 <= j < 9 -> modulo x j = modulo y j) ->
  x mod nine_primes = y mod nine_primes.
Proof.
  intros Hagree.
  assert (nine_primes | x - y) as [k Hk].
  { change nine_primes with
      (Z.lcm 2 (Z.lcm 3 (Z.lcm 5 (Z.lcm 7 (Z.lcm 11 (Z.lcm 13
         (Z.lcm 17 (Z.lcm 19 23)))))))).
    repeat apply Z.lcm_least.
    - apply (prime_divides_difference 0); [done|apply Hagree; lia].
    - apply (prime_divides_difference 1); [done|apply Hagree; lia].
    - apply (prime_divides_difference 2); [done|apply Hagree; lia].
    - apply (prime_divides_difference 3); [done|apply Hagree; lia].
    - apply (prime_divides_difference 4); [done|apply Hagree; lia].
    - apply (prime_divides_difference 5); [done|apply Hagree; lia].
    - apply (prime_divides_difference 6); [done|apply Hagree; lia].
    - apply (prime_divides_difference 7); [done|apply Hagree; lia].
    - apply (prime_divides_difference 8); [done|apply Hagree; lia]. }
  replace x with (y + k * nine_primes) by lia.
  apply Z_mod_plus_full.
Qed.

Lemma Put_None_collision {A} `{Item A} (t t' : HTree A) (it : A) :
  wf t -> Put t it = Ok (t', None) ->
  exists a, a ∈ Items t /\ Key a <> Key it /\
            Key a mod nine_primes = Key it mod nine_primes.
Proof.
  intros Hwf Hput. pose proof Hwf as (Hroot & Hnode & _).
  unfold Put in Hput.
  destruct (put (root t) it (counters_of t)) as [[[n' st'] out]|] eqn:Hp;
    [|done].
  cbn [mbind res_bind] in Hput. injection Hput as _ ->.
  destruct (put_None_agree (root t) Hnode it _ _ _ Hp)
    as [Hnine|(a & Ha & Hka & Hagree)]; [lia|].
  exists a. split; [done|]. split; [done|].
  apply nine_primes_congruent. intros j Hj. apply Hagree. lia.
Qed.

Lemma Put_incongruent {A} `{Item A} (t : HTree A) (it : A) :
  wf t ->
  (forall a, a ∈ Items t ->
     Key a mod nine_primes <> Key it mod nine_primes) ->
  exists t', Put t it = Ok (t', Some it) /\ wf t' /\
    Items t' ≡ₚ (it :: Items t) /\ Len t' = Len t + 1 /\
    Conflicts t' = Conflicts t.
Proof.
  intros Hwf Hfresh.
  destruct (Put_spec t it Hwf) as (t' & out & Hput & Hwf' & Hcases).
  destruct Hcases as [(a & Ha & Hk & _)
                     |[(_ & -> & Hperm & Hlen & Hc)|(_ & -> & ->)]].
  - destruct (Hfresh a Ha). by rewrite Hk.
  - by exists t'.
  - destruct (Put_None_collision t t it Hwf Hput) as (a & Ha & _ & Hmod).
    by destruct (Hfresh a Ha).
Qed.

(** X12: [Put] returns nil only for a new key that is congruent, modulo
    the product 223092870 of the first nine primes, to a key already
    stored; the tree is then left as it was. *)
Theorem put_nil_means_collision {A} `{Item A} (t t' : HTree A) (it : A) :
  wf t -> Put t it = Ok (t', None) ->
  t' = t /\
  (forall a, a ∈ Items t -> Key a <> Key it) /\
  exists a, a ∈ Items t /\
            Key a mod nine_primes = Key it mod nine_primes.
Proof.
  intros Hwf Hput.
  destruct (Put_None_collision t t' it Hwf Hput) as (a & Ha & _ & Hmod).
  destruct (Put_spec t it Hwf) as (t1 & out & Hput1 & _ & Hcases).
  rewrite Hput in Hput1. injection Hput1 as <- <-.
  destruct Hcases as [(_ & _ & _ & [=] & _)|[(_ & [=] & _)|(Habs & _ & ->)]].
  split; [done|]. split; [done|]. by exists a.
Qed.

Lemma put_nil_means_collision_witness :
  tree_colliding_9 = tree_colliding_9 /\
  (forall a, a ∈ Items tree_colliding_9 ->
             Key a <> Key (U (9 * nine_primes))) /\
  exists a, a ∈ Items tree_colliding_9 /\
            Key a mod nine_primes = Key (U (9 * nine_primes)) mod nine_primes.
Proof.
  apply (put_nil_means_collision tree_colliding_9 tree_colliding_9
           (U (9 * nine_primes))).
  - unfold tree_colliding_9. solve_wf.
  - vm_compute. reflexivity.
Defined.

Lemma PutEach_PutAll {A} `{Item A} (its : list A) (t t' : HTree A) outs :
  PutEach t its = Ok (t', outs) -> PutAll t its = Ok t'.
Proof.
  revert t outs. induction its as [|it rest IH]; intros t outs; cbn.
  - by intros [= -> _].
  - destruct (Put t it) as [[t1 o]|]; [|done]. cbn.
    destruct (PutEach t1 rest) as [[t2 os]|] eqn:Heach; [|done]. cbn.
    intros [= <- _]. by apply (IH t1 os).
Qed.

Lemma PutEach_incongruent {A} `{Item A} (its : list A) (t : HTree A) :
  wf t ->
  NoDup ((fun a => Key a mod nine_primes) <$> its) ->
  (forall a b, a ∈ its -> b ∈ Items t ->
     Key b mod nine_primes <> Key a mod nine_primes) ->
  exists t', PutEach t its = Ok (t', Some <$> its) /\ wf t' /\
    Items t' ≡ₚ (its ++ Items t) /\ Len t' = Len t + len its.
Proof.
  revert t. induction its as [|it rest IH]; intros t Hwf Hnd Hfresh.
  - exists t. split; [done|]. split; [done|]. split; [done|].
    unfold len. simpl. lia.
  - rewrite fmap_cons in Hnd. apply NoDup_cons in Hnd as [Hit Hnd].
    destruct (Put_incongruent t it Hwf) as (t1 & Hput & Hwf1 & Hperm & Hlen & _).
    { intros b Hb. apply (Hfresh it b); [apply elem_of_cons; by left|done]. }
    destruct (IH t1 Hwf1 Hnd) as (t' & Hall & Hwf' & Hperm' & Hlen').
    { intros a b Ha Hb. rewrite Hperm in Hb.
      apply elem_of_cons in Hb as [->|Hb].
      - intros Heq. apply Hit. apply list_elem_of_fmap. by exists a.
      - apply Hfresh; [apply elem_of_cons; by right|done]. }
    exists t'. cbn [PutEach]. rewrite Hput. cbn [mbind res_bind].
    rewrite Hall. cbn [mbind res_bind].
    split; [done|]. split; [done|]. split.
    + rewrite Hperm', Hperm. solve_Permutation.
    + rewrite Hlen', Hlen. unfold len. simpl. lia.
Qed.

(** X13: keys that are pairwise incongruent modulo 223092870, the
    product of the first nine primes, are all stored when put into a
    fresh tree: every [Put] returns the item it was given, none returns
    nil, [Len] is their number and [Get] finds each of them. *)
Theorem incongruent_keys_all_stored {A} `{Item A} (its : list A) :
  NoDup ((fun a => Key a mod nine_primes) <$> its) ->
  exists t, PutEach New its = Ok (t, Some <$> its) /\
    PutAll New its = Ok t /\ Len t = len its /\
    Items t ≡ₚ its /\ forall a, a ∈ its -> Get t a = Ok (t, Some a).
Proof.
  intros Hnd.
  destruct (PutEach_incongruent its New wf_New Hnd)
    as (t & Hall & Hwf & Hperm & Hlen).
  { intros a b _ Hb. by apply elem_of_nil in Hb. }
  change (Items New) with (@nil A) in Hperm. rewrite app_nil_r in Hperm.
  exists t. split; [done|]. split; [by eapply PutEach_PutAll|].
  split; [by rewrite Hlen|]. split; [done|].
  intros a Ha. apply (wf_findable t Hwf). by rewrite Hperm.
Qed.

Lemma incongruent_keys_all_stored_witness :
  exists t,
    PutEach New (U <$> [0; 1; 2; 3; 4; 5; 6; 7; 8; 42]) =
      Ok (t, Some <$> (U <$> [0; 1; 2; 3; 4; 5; 6; 7; 8; 42])) /\
    PutAll New (U <$> [0; 1; 2; 3; 4; 5; 6; 7; 8; 42]) = Ok t /\
    Len t = len (U <$> [0; 1; 2; 3; 4; 5; 6; 7; 8; 42]) /\
    Items t ≡ₚ (U <$> [0; 1; 2; 3; 4; 5; 6; 7; 8; 42]) /\
    forall a, a ∈ U <$> [0; 1; 2; 3; 4; 5; 6; 7; 8; 42] ->
              Get t a = Ok (t, Some a).
Proof.
  apply (incongruent_keys_all_stored (U <$> [0; 1; 2; 3; 4; 5; 6; 7; 8; 42])).
  vm_compute. refine (bool_decide_unpack _ _). vm_compute. exact I.
Defined.

(** ** Shape of the tree *)

Lemma wf_node_depth {A} `{Item A} (n : node A) path x :
  wf_node n -> reaches n path x ->
  depth x = depth n + len path /\ depth x <= 9 /\ is_Some (item x).
Proof.
  intros Hwf Hreach. revert Hwf.
  induction Hreach as [n c Hc|n c path x Hc Hreach IH]; intros Hwf.
  - apply wf_node_unfold in Hwf as (_ & _ & Hall).
    rewrite Forall_forall in Hall.
    destruct (Hall c Hc) as [(Hd & Hsome & _) Hcwf].
    apply wf_node_unfold in Hcwf as (Hcd & _). rewrite len_primes in Hcd.
    unfold len. simpl. repeat split; try done; lia.
  - apply wf_node_unfold in Hwf as (_ & _ & Hall).
    rewrite Forall_forall in Hall.
    destruct (Hall c Hc) as [(Hd & _) Hcwf].
    destruct (IH Hcwf) as (Hx & Hnine & Hsome).
    unfold len in *. simpl. repeat split; try done; lia.
Qed.

(** X14: in a well-formed tree the depth of every node below the root
    is the number of its ancestors, the root included: between 1 and
    9; and every such node holds an item. *)
Theorem node_depth_is_path_length {A} `{Item A} (t : HTree A) path x :
  wf t -> reaches (root t) path x ->
  depth x = len path /\ 1 <= depth x <= 9 /\ is_Some (item x).
Proof.
  intros (Hroot & Hnode & _) Hreach.
  destruct (wf_node_depth (root t) path x Hnode Hreach) as (Hd & Hnine & Hs).
  rewrite Hroot in Hd.
  assert (1 <= len path).
  { unfold len. destruct Hreach; simpl; lia. }
  repeat split; try done; lia.
Qed.

Lemma node_depth_is_path_length_witness :
  depth node_of_key_0 = len [(0, 0)] /\ 1 <= depth node_of_key_0 <= 9 /\
  is_Some (item node_of_key_0).
Proof.
  apply (node_depth_is_path_length tree_delete_replace [(0, 0)] node_of_key_0).
  - solve_wf.
  - apply (reaches_child (root tree_delete_replace) node_of_key_0).
    apply list_elem_of_here.
Defined.

Lemma wf_node_inside {A} `{Item A} (n : node A) :
  wf_node n -> forall m, m ∈ nodes n -> wf_node m.
Proof.
  induction n as [ni d rm cs IH] using node_ind'. intros Hwf m Hm.
  rewrite nodes_eq in Hm. apply elem_of_cons in Hm as [->|Hm]; [done|].
  apply wf_node_unfold in Hwf as (_ & _ & Hall). simpl in Hall.
  cbn [children] in Hm. apply list_elem_of_bind in Hm as (c & Hm & Hc).
  rewrite Forall_forall in IH, Hall. apply (IH c Hc); [|done].
  by destruct (Hall c Hc).
Qed.

Lemma wf_node_fanout {A} `{Item A} (n : node A) :
  wf_node n ->
  exists p, index primes (depth n) = Ok p /\
            len (children n) <= p /\ p <= 29.
Proof.
  intros Hwf.
  apply wf_node_unfold in Hwf as (Hd & Hs & Hall).
  destruct (primes_index (depth n) Hd) as (p & Hp & Hpr).
  exists p. split; [done|]. split; [|lia].
  destruct (sorted_distinct_ascending (children n) Hs) as [Hnd _].
  assert (remainder <$> children n ⊆+ seqZ 0 p) as Hsub.
  { apply NoDup_submseteq; [done|].
    intros r (c & -> & Hc)%list_elem_of_fmap. apply elem_of_seqZ.
    rewrite Forall_forall in Hall.
    destruct (Hall c Hc) as [(_ & [a Ha] & Hk) _].
    specialize (Hk a (item_in_node_items c a Ha)).
    destruct (modulo_eq (Key a) (depth n) Hd) as (q & Hq & _ & Hm).
    assert (q = p) as -> by congruence.
    rewrite Hm in Hk. injection Hk as <-.
    pose proof (Z.mod_pos_bound (Key a) p). lia. }
  apply submseteq_length in Hsub.
  rewrite length_fmap, length_seqZ in Hsub. unfold len. lia.
Qed.

(** X15: a node at depth [d] has at most [primes[d]] children, so at
    most 29. *)
Theorem children_bounded_by_prime {A} `{Item A} (t : HTree A) (n : node A) :
  wf t -> n ∈ nodes (root t) ->
  exists p, index primes (depth n) = Ok p /\
            len (children n) <= p /\ p <= 29.
Proof.
  intros (_ & Hnode & _) Hn. apply wf_node_fanout.
  by apply (wf_node_inside (root t)).
Qed.

Lemma children_bounded_by_prime_witness :
  exists p, index primes (depth (root tree_0_9)) = Ok p /\
            len (children (root tree_0_9)) <= p /\ p <= 29.
Proof.
  apply (children_bounded_by_prime tree_0_9 (root tree_0_9)); [solve_wf|].
  rewrite nodes_eq. apply list_elem_of_here.
Defined.

(** X16: on every tree built from a fresh tree by [Put] and [Delete],
    [Len] is the number of stored items, at most [2 ^ 32], no two
    stored items have the same key, every stored item is found by
    [Get], and the sibling arrays are sorted. *)
Theorem reachable_tree_invariants {A} `{Item A} (t : HTree A) :
  reachable t ->
  Len t = len (Items t) /\ 0 <= Len t <= 2 ^ 32 /\
  NoDup (Key <$> Items t) /\ findable t /\ sibling_inv t /\
  path_consistent t.
Proof.
  intros Hwf%reachable_wf.
  pose proof (wf_length_range t Hwf) as Hrange.
  pose proof Hwf as (_ & _ & Hnd & Hlen & _).
  split; [done|]. split; [done|]. split; [done|].
  split; [by apply wf_findable|].
  split; [by apply wf_sibling_inv|by apply wf_path_consistent].
Qed.

Lemma reachable_tree_invariants_witness :
  Len example_tree = len (Items example_tree) /\
  0 <= Len example_tree <= 2 ^ 32 /\
  NoDup (Key <$> Items example_tree) /\ findable example_tree /\
  sibling_inv example_tree /\ path_consistent example_tree.
Proof.
  apply (reachable_tree_invariants example_tree).
  apply (reachable_Put New (mkKeyValue 123 "data1") example_tree
           (Some (mkKeyValue 123 "data1")) reachable_New).
  vm_compute. reflexivity.
Defined.

(** ** Capacity *)

Lemma capacity_step d p :
  0 <= d < 9 -> index primes d = Ok p ->
  capacity d = p * (1 + capacity (d + 1)) /\ 0 <= capacity (d + 1).
Proof.
  intros Hd Hp.
  assert (Hc : d = 0 \/ d = 1 \/ d = 2 \/ d = 3 \/ d = 4 \/ d = 5 \/
               d = 6 \/ d = 7 \/ d = 8) by lia.
  destruct Hc as [->|[->|[->|[->|[->|[->|[->|[->| ->]]]]]]]];
    vm_compute in Hp; injection Hp as <-; vm_compute; split; congruence.
Qed.

Lemma wf_node_capacity {A} `{Item A} (n : node A) :
  wf_node n -> len (forest_items (children n)) <= capacity (depth n).
Proof.
  induction n as [ni d rm cs IH] using node_ind'. intros Hwf.
  destruct (wf_node_fanout _ Hwf) as (p & Hp & Hfan & _).
  apply wf_node_unfold in Hwf as (Hd & _ & Hall).
  cbn [depth children] in *. rewrite len_primes in Hd.
  destruct (decide (d = 9)) as [->|Hd9].
  - destruct cs as [|c cs]; [done|]. exfalso.
    apply Forall_cons in Hall as [[(Hcd & _) Hcwf] _].
    apply wf_node_unfold in Hcwf as (Hc & _). rewrite len_primes in Hc. lia.
  - destruct (capacity_step d p) as [-> Hpos]; [lia|done|].
    assert (len (forest_items cs) <= len cs * (1 + capacity (d + 1))) as Hsum.
    { clear Hfan. induction cs as [|c cs IHcs]; [unfold len; simpl; lia|].
      apply Forall_cons in IH as [IHc IH].
      apply Forall_cons in Hall as [[(Hcd & [a Ha] & _) Hcwf] Hall].
      specialize (IHcs IH Hall). specialize (IHc Hcwf). rewrite Hcd in IHc.
      rewrite forest_items_cons, node_items_eq, Ha.
      cbn [from_option]. unfold len in *. rewrite !length_app.
      cbn [length]. nia. }
    nia.
Qed.

(** X21: a tree never holds more than 233335658 items, the number of
    nodes that fit into the depths 1 to 9; this is less than the
    number [2 ^ 32] of keys. *)
Theorem tree_never_exceeds_capacity {A} `{Item A} (t : HTree A) :
  wf t -> Len t <= 233335658 /\ 233335658 < 2 ^ 32.
Proof.
  intros (Hroot & Hnode & _ & Hlen & _). split; [|done].
  pose proof (wf_node_capacity (root t) Hnode) as Hcap.
  rewrite Hroot in Hcap. unfold Len. rewrite Hlen. exact Hcap.
Qed.

Lemma tree_never_exceeds_capacity_witness :
  Len tree_0_9 <= 233335658 /\ 233335658 < 2 ^ 32.
Proof. apply (tree_never_exceeds_capacity tree_0_9). solve_wf. Defined.

(** ** No panic, and the ends of the iteration *)

(** X17: on every tree built from a fresh tree by [Put] and [Delete],
    no operation panics: [Get], [Put] and [Delete] return, and an
    iteration of one more call of [Next] than [Len] runs to its end. *)
Theorem operations_never_panic {A} `{Item A} (t : HTree A) (it : A) :
  reachable t ->
  (exists o, Get t it = Ok (t, o)) /\
  (exists t' o, Put t it = Ok (t', o) /\ reachable t') /\
  (exists t' o, Delete t it = Ok (t', o) /\ reachable t') /\
  (exists xs, drain (S (Z.to_nat (Len t))) (NewIterator t) = Ok (xs, true) /\
              len xs = Len t).
Proof.
  intros Hreach. pose proof (reachable_wf t Hreach) as Hwf.
  split; [|split; [|split]].
  - destruct (Get_spec t it Hwf) as [(a & _ & _ & ->)|[_ ->]]; by eexists.
  - destruct (Put_spec t it Hwf) as (t' & o & Hput & _).
    exists t', o. split; [done|]. by eapply reachable_Put.
  - destruct (Delete_spec t it Hwf) as (t' & o & Hdel & _).
    exists t', o. split; [done|]. by eapply reachable_Delete.
  - pose proof Hwf as (_ & Hnode & _ & Hlen & _).
    assert (remaining (NewIterator t) = Some <$> Items t) as Hrem.
    { rewrite remaining_NewIterator. by apply wf_node_slots. }
    exists (Some <$> Items t). unfold Len. rewrite Hlen. split.
    + rewrite drain_spec; [by rewrite Hrem|apply positioned_NewIterator|].
      rewrite Hrem, length_fmap. unfold len. lia.
    + unfold len. by rewrite length_fmap.
Qed.

Lemma operations_never_panic_witness :
  (exists o, Get example_tree (mkKeyValue 7 "seven") = Ok (example_tree, o)) /\
  (exists t' o, Put example_tree (mkKeyValue 7 "seven") = Ok (t', o) /\
                reachable t') /\
  (exists t' o, Delete example_tree (mkKeyValue 7 "seven") = Ok (t', o) /\
                reachable t') /\
  (exists xs, drain (S (Z.to_nat (Len example_tree))) (NewIterator example_tree)
              = Ok (xs, true) /\ len xs = Len example_tree).
Proof.
  apply (operations_never_panic example_tree (mkKeyValue 7 "seven")).
  apply (reachable_Put New (mkKeyValue 123 "data1") example_tree
           (Some (mkKeyValue 123 "data1")) reachable_New).
  vm_compute. reflexivity.
Defined.

Lemma Next_loop_false {A} (fuel : nat) (iter iter' : Iterator A) :
  Next_loop fuel iter = Ok (iter', false) ->
  iter_fathers iter' = [] /\ iter_n iter' = iter_n iter.
Proof.
  revert iter. induction fuel as [|fuel IH]; intros iter; simpl.
  - destruct (Z.ltb_spec 0 (len (iter_fathers iter))) as [Hlt|Hge]; [done|].
    intros [= <-]. split; [|done]. apply len_0_iff. unfold len in *. lia.
  - destruct (Z.ltb_spec 0 (len (iter_fathers iter))) as [Hlt|Hge].
    + destruct (index (iter_fathers iter) (len (iter_fathers iter) - 1))
        as [father|]; [|done].
      simpl. destruct (iter_i iter <? len (children father) - 1).
      * destruct (index (children father) (iter_i iter + 1)); done.
      * destruct (slice_to (iter_fathers iter) _) as [fs|]; [|done]. simpl.
        destruct (slice_to (iter_indexes iter) _) as [ixs|]; [|done]. simpl.
        destruct (index (iter_indexes iter) _) as [ix|]; [|done]. simpl.
        intros Hloop. by apply IH in Hloop.
    + intros [= <-]. split; [|done]. apply len_0_iff. unfold len in *. lia.
Qed.

(** X18: once [Next] has returned false it keeps returning false: the
    iterator rests on the last node it visited, with an empty stack,
    and is not changed by further calls. *)
Theorem next_stays_exhausted {A} (iter iter' : Iterator A) :
  Next iter = Ok (iter', false) ->
  Next iter' = Ok (iter', false) /\
  iter_fathers iter' = [] /\ iter_n iter' = iter_n iter.
Proof.
  unfold Next at 1.
  destruct (Z.ltb_spec 0 (len (children (iter_n iter)))) as [Hlt|Hge].
  - destruct (index (children (iter_n iter)) 0); done.
  - intros [Hfs Hn]%Next_loop_false. split; [|done].
    unfold Next. rewrite Hn, Hfs.
    destruct (Z.ltb_spec 0 (len (children (iter_n iter)))) as [Hlt|_]; [lia|].
    destruct iter'. simpl in *. by subst.
Qed.

Lemma next_stays_exhausted_witness :
  Next after_last_0_9 = Ok (after_last_0_9, false) /\
  iter_fathers after_last_0_9 = [] /\
  iter_n after_last_0_9 = iter_n last_0_9.
Proof.
  apply (next_stays_exhausted last_0_9 after_last_0_9).
  vm_compute. reflexivity.
Defined.

Example last_0_9_has_visited :
  drain_to 10 (NewIterator tree_0_9) = Ok last_0_9 /\
  Iterator_Item last_0_9 = Some (U 5) /\
  length (iter_fathers last_0_9) = 2%nat /\
  Next last_0_9 = Ok (after_last_0_9, false).
Proof. repeat split; vm_compute; reflexivity. Qed.

(** ** The first item and the last *)

(** X19: when [delete] matches a child without children, that child is
    taken out of its father's array, which gets one shorter while the
    other children keep their order; the father's own fields stay, the
    length counter goes down by one, the conflict counter stays, and the
    child's item is returned. *)
Theorem delete_removes_leaf {A} `{Item A}
    (n : node A) (it : A) (st : counters) r lft rgt (child : node A) ci :
  modulo (Key it) (depth n) = Ok r ->
  search (children n) r = Ok (true, lft, rgt) ->
  index (children n) lft = Ok child ->
  item child = Some ci -> Key ci = Key it ->
  children child = [] ->
  - 2 ^ 63 < c_length st < 2 ^ 63 ->
  exists n' st', delete n it st = Ok (n', st', Some ci) /\
    children n' = take (Z.to_nat lft) (children n) ++
                  drop (S (Z.to_nat lft)) (children n) /\
    len (children n') = len (children n) - 1 /\
    (forall (j : nat) c, children n' !! j = Some c ->
       children n !! (if decide (j < Z.to_nat lft)%nat then j else S j)
       = Some c) /\
    item n' = item n /\ depth n' = depth n /\ remainder n' = remainder n /\
    c_length st' = c_length st - 1 /\ c_conflicts st' = c_conflicts st.
Proof.
  intros Hm Hs Hidx Hitem Hkey Hleaf Hlen.
  destruct n as [ni d rm cs]. cbn [depth children] in *.
  apply index_Ok_inv in Hidx as [Hrange Hlookup].
  cbn [delete]. rewrite Hm. cbn [mbind res_bind]. rewrite Hs.
  cbn [mbind res_bind].
  rewrite (with_index_lookup cs lft child) by (lia || done).
  unfold item_key. rewrite Hitem. cbn [mbind res_bind].
  rewrite Hkey, Z.eqb_refl, Hleaf.
  change (len (@nil (node A)) =? 0) with true. cbn iota.
  unfold delete_at. rewrite decide_True by done. cbn [mbind res_bind].
  replace (Z.to_nat (lft + 1)) with (S (Z.to_nat lft)) by lia.
  eexists _, _. split; [reflexivity|]. cbn [children item depth remainder].
  split; [done|]. split.
  { unfold len in *. rewrite length_app, length_take, length_drop. lia. }
  split.
  { intros j c Hc. rewrite <- delete_take_drop in Hc.
    case_decide.
    - by rewrite list_lookup_delete_lt in Hc.
    - by rewrite list_lookup_delete_ge in Hc by lia. }
  split; [done|]. split; [done|]. split; [done|].
  unfold decr_length. cbn [c_length c_conflicts]. split; [|done].
  apply int_wrap_small. lia.
Qed.

Lemma delete_removes_leaf_witness :
  exists n' st',
    delete node_of_key_1 (U 7) (Counters 8 0) = Ok (n', st', Some (U 7)) /\
    children n' = take (Z.to_nat 1) (children node_of_key_1) ++
                  drop (S (Z.to_nat 1)) (children node_of_key_1) /\
    len (children n') = len (children node_of_key_1) - 1 /\
    (forall (j : nat) c, children n' !! j = Some c ->
       children node_of_key_1 !! (if decide (j < Z.to_nat 1)%nat then j else S j)
       = Some c) /\
    item n' = item node_of_key_1 /\ depth n' = depth node_of_key_1 /\
    remainder n' = remainder node_of_key_1 /\
    c_length st' = c_length (Counters 8 0) - 1 /\
    c_conflicts st' = c_conflicts (Counters 8 0).
Proof.
  apply (delete_removes_leaf node_of_key_1 (U 7) (Counters 8 0) 1 1 1
           (Node (Some (U 7)) 2 1 []) (U 7));
    try (vm_compute; reflexivity).
  cbn [c_length]. lia.
Defined.

(** X20: a fresh tree is empty: [Get] and [Delete] of any item return
    nil and leave it as it is; the first [Put] stores the item in a
    node of depth 1 under the root, with the key's remainder at 2. *)
Theorem fresh_tree_is_empty {A} `{Item A} (it : A) :
  Len (@New A) = 0 /\ Conflicts (@New A) = 0 /\ Items (@New A) = [] /\
  Get New it = Ok (New, None) /\
  Delete New it = Ok (New, None) /\
  Put New it =
    Ok (mkHTree (Node None 0 0 [Node (Some it) 1 (Key it mod 2) []]) 1 0,
        Some it).
Proof.
  destruct (modulo_eq (Key it) 0) as (p & Hp & _ & Hm); [by rewrite len_primes|].
  assert (p = 2) as -> by (vm_compute in Hp; congruence).
  do 5 (split; [reflexivity|]).
  unfold Put, New. cbn [root put]. rewrite Hm. reflexivity.
Qed.

(** ** [get] over the memory *)

Lemma M_bind_Ok {A X Y} (c : @M A X) (k : X -> @M A Y) m y m' :
  M_bind c k m = Ok (y, m') ->
  exists x m1, c m = Ok (x, m1) /\ k x m1 = Ok (y, m').
Proof.
  unfold M_bind. destruct (c m) as [[x m1]|]; [|done]. intros Hk.
  by exists x, m1.
Qed.

Lemma lift_Ok {A X} (r : res X) (m m' : memory A) x :
  lift r m = Ok (x, m') -> r = Ok x /\ m' = m.
Proof. unfold lift. destruct r; [|done]. by intros [= -> ->]. Qed.

Lemma load_Ok {A} (p : ptr) (m m' : memory A) nd :
  load p m = Ok (nd, m') ->
  m' = m /\ exists l, p = Some l /\ m_nodes m !! l = Some nd.
Proof.
  unfold load. destruct p as [l|]; [|done].
  destruct (m_nodes m !! l) as [nd'|] eqn:Hl; [|done].
  intros [= -> ->]. split; [done|]. by exists l.
Qed.

Lemma hsearch_loop_frame {A} fuel (s : list ptr) r lo hi (m m' : memory A) x :
  hsearch_loop fuel s r lo hi m = Ok (x, m') -> m' = m.
Proof.
  revert lo hi. induction fuel as [|fuel IH]; intros lo hi; simpl;
    destruct (lo <? hi); try done; try (by intros [= _ ->]).
  intros (p & m1 & [_ ->]%lift_Ok & Hrest)%M_bind_Ok.
  apply M_bind_Ok in Hrest as (child & m2 & [-> _]%load_Ok & Hrest).
  destruct (h_remainder child <? r); by apply IH in Hrest.
Qed.

Lemma hsearch_frame {A} (s : list ptr) r (m m' : memory A) x :
  hsearch s r m = Ok (x, m') -> m' = m.
Proof.
  unfold hsearch.
  intros ([lft rgt] & m1 & ->%hsearch_loop_frame & Hrest)%M_bind_Ok.
  destruct (lft =? rgt); [|by (cbv [M_ret] in Hrest; injection Hrest as _ ->)].
  apply M_bind_Ok in Hrest as (p & m2 & [_ ->]%lift_Ok & Hrest).
  apply M_bind_Ok in Hrest as (child & m3 & [-> _]%load_Ok & Hrest).
  destruct (r =? h_remainder child); by (cbv [M_ret] in Hrest; injection Hrest as _ ->).
Qed.

(** Whatever the memory holds, a [get] that returns has not changed it. *)
Lemma hget_frame {A} `{Item A} fuel (p : ptr) (it : A) (m m' : memory A) out :
  hget fuel p it m = Ok (out, m') -> m' = m.
Proof.
  revert p m. induction fuel as [|fuel IH]; intros p m; simpl; [done|].
  intros (nd & m1 & [-> _]%load_Ok & Hrest)%M_bind_Ok.
  apply M_bind_Ok in Hrest as (r & m2 & [_ ->]%lift_Ok & Hrest).
  apply M_bind_Ok in Hrest as ([[ok lft] rgt] & m3 & ->%hsearch_frame & Hrest).
  destruct ok; [|by (cbv [M_ret] in Hrest; injection Hrest as _ ->)].
  apply M_bind_Ok in Hrest as (q & m4 & [_ ->]%lift_Ok & Hrest).
  apply M_bind_Ok in Hrest as (child & m5 & [-> _]%load_Ok & Hrest).
  apply M_bind_Ok in Hrest as (k & m6 & [_ ->]%lift_Ok & Hrest).
  destruct (k =? Key it); [by (cbv [M_ret] in Hrest; injection Hrest as _ ->)|by apply IH in Hrest].
Qed.

Lemma index_represents {A} nodes (ps : list ptr) (cs : list (node A)) i c :
  Forall2 (represents_node nodes) ps cs -> index cs i = Ok c ->
  exists p, index ps i = Ok p /\ represents_node nodes p c.
Proof.
  intros Hall [Hi Hc]%index_Ok_inv.
  destruct (Forall2_lookup_r _ _ _ _ _ Hall Hc) as (p & Hp & Hrep).
  exists p. split; [|done]. apply index_lookup; [lia|done].
Qed.

Lemma load_represents {A} (m : memory A) p n :
  represents_node (m_nodes m) p n ->
  exists nd, load p m = Ok (nd, m) /\
    h_item nd = item n /\ h_depth nd = depth n /\
    h_remainder nd = remainder n /\
    Forall2 (represents_node (m_nodes m)) (h_children nd) (children n).
Proof.
  intros Hrep. inversion Hrep as [l nd n' Hl Hi Hd Hr Hcs]; subst.
  exists nd. unfold load. rewrite Hl. done.
Qed.

Lemma hsearch_loop_represents {A} (m : memory A) ps (cs : list (node A)) r :
  Forall2 (represents_node (m_nodes m)) ps cs ->
  forall fuel lo hi x,
    search_loop fuel cs r lo hi = Ok x ->
    hsearch_loop fuel ps r lo hi m = Ok (x, m).
Proof.
  intros Hall. induction fuel as [|fuel IH]; intros lo hi x; simpl;
    destruct (lo <? hi); try done; try (by intros [= <-]).
  destruct (index cs (Z.shiftr (lo + hi) 1)) as [c|] eqn:Hc; [|done].
  destruct (index_represents _ ps cs _ c Hall Hc) as (p & Hp & Hrep).
  destruct (load_represents m p c Hrep) as (nd & Hload & _ & _ & Hr & _).
  simpl. unfold M_bind. rewrite Hp. simpl. rewrite Hload, Hr.
  destruct (remainder c <? r); apply IH.
Qed.

Lemma hsearch_represents {A} (m : memory A) ps (cs : list (node A)) r x :
  Forall2 (represents_node (m_nodes m)) ps cs ->
  search cs r = Ok x -> hsearch ps r m = Ok (x, m).
Proof.
  intros Hall. unfold search, hsearch.
  assert (length ps = length cs) as Hlen by (by eapply Forall2_length).
  assert (len ps = len cs) as Hlen' by (unfold len; by rewrite Hlen).
  destruct (search_loop (length cs) cs r 0 (len cs - 1)) as [[lft rgt]|] eqn:Hl;
    [|done].
  apply (hsearch_loop_represents m ps cs r Hall) in Hl.
  unfold M_bind. rewrite Hlen, Hlen', Hl. simpl.
  destruct (lft =? rgt); [|by intros [= <-]].
  destruct (index cs lft) as [c|] eqn:Hc; [|done].
  destruct (index_represents _ ps cs _ c Hall Hc) as (p & Hp & Hrep).
  destruct (load_represents m p c Hrep) as (nd & Hload & _ & _ & Hr & _).
  rewrite Hp. simpl. rewrite Hload, Hr.
  destruct (r =? remainder c); by intros [= <-].
Qed.

(** On a memory that represents a well-formed node, [get] over the
    memory returns what [get] on the node returns, once it is given one
    level of recursion for every depth from the node's down to 9. *)
Lemma hget_represents {A} `{Item A} (n : node A) :
  wf_node n -> forall (m : memory A) p (it : A) (fuel : nat),
  represents_node (m_nodes m) p n ->
  10 - depth n <= Z.of_nat fuel ->
  exists out, get n it = Ok out /\ hget fuel p it m = Ok (out, m).
Proof.
  induction n as [ni d rm cs IH] using node_ind'.
  intros Hwf m p it fuel Hrep Hfuel.
  apply wf_node_unfold in Hwf as (Hd & Hs & Hall). simpl in Hd, Hs, Hall.
  rewrite len_primes in Hd. cbn [depth] in Hfuel.
  destruct fuel as [|fuel]; [lia|].
  destruct (load_represents m p _ Hrep) as (nd & Hload & _ & Hnd & _ & Hcs).
  cbn [depth children] in Hnd, Hcs.
  destruct (modulo_eq (Key it) d) as (q & Hq & Hqr & Hm);
    [by rewrite len_primes|].
  cbn [get hget]. unfold M_bind at 1. rewrite Hload.
  unfold M_bind at 1. rewrite Hnd, Hm. cbn [lift mbind res_bind].
  destruct (search_cases cs (Key it mod q) Hs)
    as [(i & c & rt & Hf & Hc & Hr)|[(lft & k & Hnf & _)|[-> Hnf]]].
  - rewrite Hf. cbn [mbind res_bind].
    unfold M_bind at 1. rewrite (hsearch_represents m _ cs _ _ Hcs Hf).
    rewrite (with_index_lookup cs (Z.of_nat i) c); [|lia|by rewrite Nat2Z.id].
    assert (index cs (Z.of_nat i) = Ok c) as Hidx.
    { apply index_lookup; [lia|by rewrite Nat2Z.id]. }
    destruct (index_represents _ _ cs _ c Hcs Hidx) as (pc & Hpc & Hrepc).
    destruct (load_represents m pc c Hrepc) as (ndc & Hloadc & Hic & _).
    assert (c ∈ cs) as Hcin by (by eapply list_elem_of_lookup_2).
    rewrite Forall_forall in Hall, IH.
    destruct (Hall c Hcin) as [(Hcd & [a0 Ha0] & _) Hcwf].
    unfold M_bind at 1. rewrite Hpc. cbn [lift].
    unfold M_bind at 1. rewrite Hloadc.
    unfold M_bind at 1. unfold hitem_key, item_key. rewrite Hic, Ha0.
    cbn [lift mbind res_bind].
    destruct (Key a0 =? Key it).
    + by exists (Some a0).
    + apply (IH c Hcin Hcwf); [done|lia].
  - rewrite Hnf. cbn [mbind res_bind].
    unfold M_bind at 1. rewrite (hsearch_represents m _ cs _ _ Hcs Hnf).
    by exists None.
  - rewrite Hnf. cbn [mbind res_bind].
    unfold M_bind at 1. rewrite (hsearch_represents m _ [] _ _ Hcs Hnf).
    by exists None.
Qed.

(** C10: [get] only observes.  On a memory that holds a well-formed
    tree, a [Get] given ten levels of recursion returns, returns what
    [Get] on the tree returns, and leaves the memory as it was; and on
    any memory whatever, a [Get] that returns has changed nothing: not
    [length], not [conflicts], and no node's item, depth, remainder or
    children. *)
Theorem get_leaves_memory_unchanged {A} `{Item A}
    (m : memory A) (t : HTree A) (it : A) (fuel : nat) :
  wf t -> represents m t -> (10 <= fuel)%nat ->
  (exists out, HGet fuel it m = Ok (out, m) /\ Get t it = Ok (t, out)) /\
  (forall (m0 m1 : memory A) fuel0 out0,
     HGet fuel0 it m0 = Ok (out0, m1) ->
     m_length m1 = m_length m0 /\ m_conflicts m1 = m_conflicts m0 /\
     m_root m1 = m_root m0 /\ m_nodes m1 = m_nodes m0).
Proof.
  intros (Hroot & Hnode & _) (Hrep & _) Hfuel. split.
  - destruct (hget_represents (root t) Hnode m (m_root m) it fuel Hrep)
      as (out & Hget & Hhget); [lia|].
    exists out. split; [exact Hhget|]. unfold Get. by rewrite Hget.
  - intros m0 m1 fuel0 out0 Hget. unfold HGet in Hget.
    by apply hget_frame in Hget as ->.
Qed.

Ltac solve_represents :=
  eapply represents_intro;
  [vm_compute; reflexivity|reflexivity|reflexivity|reflexivity|];
  cbn [h_children children];
  repeat (constructor; [solve_represents|]); constructor.

Lemma get_leaves_memory_unchanged_witness :
  (exists out, HGet 10 (U 2) memory_0_2 = Ok (out, memory_0_2) /\
               Get tree_0_2 (U 2) = Ok (tree_0_2, out)) /\
  (forall (m0 m1 : memory Uint32) fuel0 out0,
     HGet fuel0 (U 2) m0 = Ok (out0, m1) ->
     m_length m1 = m_length m0 /\ m_conflicts m1 = m_conflicts m0 /\
     m_root m1 = m_root m0 /\ m_nodes m1 = m_nodes m0).
Proof.
  apply (get_leaves_memory_unchanged memory_0_2 tree_0_2 (U 2) 10).
  - unfold tree_0_2. solve_wf.
  - unfold represents, memory_0_2, tree_0_2. cbn [m_nodes m_root root].
    split; [solve_represents|]. split; reflexivity.
  - lia.
Defined.

Example get_over_memory_0_2 :
  HGet 10 (U 2) memory_0_2 = Ok (Some (U 2), memory_0_2) /\
  HGet 10 (U 5) memory_0_2 = Ok (None, memory_0_2) /\
  HGet 1 (U 5) memory_0_2 = Err OutOfFuel.
Proof. repeat split; vm_compute; reflexivity. Qed.
